(** * The AtomSpace of rwkv_opencog.cpp: a shallow embedding and its properties

    The store is a hash map from 64-bit handles to atom records, with a
    name index for nodes, a signature set for links and a bump counter
    for handles.  Handles are [N] with the 64-bit wrap-around of
    [next_handle++] written out; C [float]s are IEEE binary32 values
    ([spec_float] at precision 24, maximal exponent 128); the iteration
    order of [std::unordered_map] is left abstract (class [Traversal]).
    Calls are read one at a time, so the mutex plays no part; the store
    pointer and the output buffers are taken to be non-null, a buffer
    being the list of the entries written to it. *)

From Stdlib Require Import Floats.SpecFloat Ascii String.
From stdpp Require Import gmap strings list fin_maps pretty.

Local Open Scope N_scope.

(** ** C floats *)

Module F32.
Abbreviation float := spec_float (only parsing).

Definition prec : Z := 24.
Definition emax : Z := 128.

Definition zero : float := S754_zero false.
Definition one : float := S754_finite false 8388608 (-23).
Definition minus_one : float := S754_finite true 8388608 (-23).
(** [0.5f], [1.5f]: exact. *)
Definition half : float := S754_finite false 8388608 (-24).
Definition one_and_half : float := S754_finite false 12582912 (-23).
(** [0.1f], [0.2f], [0.8f]: the binary32 values nearest to the decimals
    (0x3DCCCCCD, 0x3E4CCCCD, 0x3F4CCCCD). *)
Definition tenth : float := S754_finite false 13421773 (-27).
Definition fifth : float := S754_finite false 13421773 (-26).
Definition four_fifths : float := S754_finite false 13421773 (-24).

Definition lt (x y : float) : bool := SFltb x y.
Definition le (x y : float) : bool := SFleb x y.
Definition eqb (x y : float) : bool := SFeqb x y.
Definition abs (x : float) : float := SFabs x.
Definition opp (x : float) : float := SFopp x.
Definition mul (x y : float) : float := SFmul prec emax x y.

(** [std::min(a, b)] is [(b < a) ? b : a]; [std::max(a, b)] is
    [(a < b) ? b : a]. *)
Definition min (a b : float) : float := if lt b a then b else a.
Definition max (a b : float) : float := if lt a b then b else a.
End F32.

(** ** Atom types, truth and attention values, atoms *)

Inductive rwkv_atom_type_t :=
  | RWKV_ATOM_NODE
  | RWKV_ATOM_LINK
  | RWKV_ATOM_CONCEPT_NODE
  | RWKV_ATOM_PREDICATE_NODE
  | RWKV_ATOM_NUMBER_NODE
  | RWKV_ATOM_VARIABLE_NODE
  | RWKV_ATOM_LIST_LINK
  | RWKV_ATOM_EVALUATION_LINK
  | RWKV_ATOM_IMPLICATION_LINK
  | RWKV_ATOM_AND_LINK
  | RWKV_ATOM_OR_LINK
  | RWKV_ATOM_NOT_LINK
  | RWKV_ATOM_SIMILARITY_LINK
  | RWKV_ATOM_INHERITANCE_LINK.

#[global] Instance rwkv_atom_type_eq_dec : EqDecision rwkv_atom_type_t.
Proof. solve_decision. Defined.

(** The enumerators' integer values, as [std::to_string(type)] prints them. *)
Definition atom_type_value (t : rwkv_atom_type_t) : N :=
  match t with
  | RWKV_ATOM_NODE => 0
  | RWKV_ATOM_LINK => 1
  | RWKV_ATOM_CONCEPT_NODE => 2
  | RWKV_ATOM_PREDICATE_NODE => 3
  | RWKV_ATOM_NUMBER_NODE => 4
  | RWKV_ATOM_VARIABLE_NODE => 5
  | RWKV_ATOM_LIST_LINK => 6
  | RWKV_ATOM_EVALUATION_LINK => 7
  | RWKV_ATOM_IMPLICATION_LINK => 8
  | RWKV_ATOM_AND_LINK => 9
  | RWKV_ATOM_OR_LINK => 10
  | RWKV_ATOM_NOT_LINK => 11
  | RWKV_ATOM_SIMILARITY_LINK => 12
  | RWKV_ATOM_INHERITANCE_LINK => 13
  end.

Record rwkv_truth_value_t := mk_tv {
  strength : F32.float;
  confidence : F32.float
}.

Record rwkv_attention_value_t := mk_av {
  sti : F32.float;
  lti : F32.float;
  vlti : F32.float
}.

(** [rwkv_atom_handle_t] is [uint64_t]; 0 is the invalid handle. *)
Abbreviation rwkv_atom_handle_t := N (only parsing).
Definition RWKV_INVALID_ATOM_HANDLE : rwkv_atom_handle_t := 0.

Definition uint64_modulus : N := 2 ^ 64.
Definition wrap64 (x : N) : N := x mod uint64_modulus.

Record rwkv_atom := mk_atom {
  handle : rwkv_atom_handle_t;
  type : rwkv_atom_type_t;
  name : string;
  outgoing : list rwkv_atom_handle_t;
  tv : rwkv_truth_value_t;
  av : rwkv_attention_value_t
}.

(** The constructor [rwkv_atom(h, t)]: truth value (0.5, 0.1), attention
    (0, 0, 0), empty name and outgoing list. *)
Definition new_atom (h : rwkv_atom_handle_t) (t : rwkv_atom_type_t) : rwkv_atom :=
  {| handle := h; type := t; name := ""; outgoing := [];
     tv := mk_tv F32.half F32.tenth;
     av := mk_av F32.zero F32.zero F32.zero |}.

Definition with_name (a : rwkv_atom) (n : string) : rwkv_atom :=
  {| handle := handle a; type := type a; name := n; outgoing := outgoing a;
     tv := tv a; av := av a |}.

Definition with_outgoing (a : rwkv_atom) (og : list rwkv_atom_handle_t) : rwkv_atom :=
  {| handle := handle a; type := type a; name := name a; outgoing := og;
     tv := tv a; av := av a |}.

(** ** The AtomSpace *)

Record rwkv_atomspace := mk_atomspace {
  atoms : gmap N rwkv_atom;
  name_index : gmap string (list N);
  link_signatures : gset string;
  next_handle : rwkv_atom_handle_t
}.

(** The order in which a [for (it = atoms.begin(); ...)] loop visits the
    entries of the hash map: some enumeration of its entries, each once. *)
Class Traversal := {
  iteration : gmap N rwkv_atom → list (N * rwkv_atom);
  iteration_perm : ∀ m, iteration m ≡ₚ map_to_list m
}.

(** One traversal, by increasing key encoding; it makes every definition
    below executable. *)
#[global] Instance key_order : Traversal :=
  {| iteration := map_to_list; iteration_perm := λ m, reflexivity _ |}.

(** ** Utility functions *)

Fixpoint signature_loop (i : nat) (og : list N) (sig : string) : string :=
  match og with
  | [] => sig
  | h :: og' =>
      let sig := match i with O => sig | S _ => sig +:+ "," end in
      signature_loop (S i) og' (sig +:+ pretty h)
  end.

Definition create_link_signature (ty : rwkv_atom_type_t) (og : list N) : string :=
  signature_loop 0 og (pretty (atom_type_value ty) +:+ ":").

Definition is_node_type (ty : rwkv_atom_type_t) : bool :=
  bool_decide (ty = RWKV_ATOM_NODE)
  || bool_decide (ty = RWKV_ATOM_CONCEPT_NODE)
  || bool_decide (ty = RWKV_ATOM_PREDICATE_NODE)
  || bool_decide (ty = RWKV_ATOM_NUMBER_NODE)
  || bool_decide (ty = RWKV_ATOM_VARIABLE_NODE).

Definition is_link_type (ty : rwkv_atom_type_t) : bool := negb (is_node_type ty).

(** ** Creation *)

Definition rwkv_atomspace_create : rwkv_atomspace :=
  {| atoms := ∅; name_index := ∅; link_signatures := ∅; next_handle := 1 |}.

(** The loop of [add_node] over the handles indexed under the name. *)
Fixpoint find_node_of_type (m : gmap N rwkv_atom) (ty : rwkv_atom_type_t)
    (hs : list N) : option N :=
  match hs with
  | [] => None
  | h :: hs' =>
      match m !! h with
      | Some a => if decide (type a = ty) then Some h else find_node_of_type m ty hs'
      | None => find_node_of_type m ty hs'
      end
  end.

(** [name] is a C string pointer: [None] is the null pointer.  The result
    is the returned handle and the store after the call. *)
Definition rwkv_atomspace_add_node (s : rwkv_atomspace) (ty : rwkv_atom_type_t)
    (nm : option string) : N * rwkv_atomspace :=
  match nm with
  | None => (RWKV_INVALID_ATOM_HANDLE, s)
  | Some node_name =>
      if negb (is_node_type ty) then (RWKV_INVALID_ATOM_HANDLE, s) else
      match name_index s !! node_name ≫= find_node_of_type (atoms s) ty with
      | Some h => (h, s)
      | None =>
          let h := next_handle s in
          let atom := with_name (new_atom h ty) node_name in
          (h, {| atoms := <[h := atom]> (atoms s);
                 name_index :=
                   <[node_name := default [] (name_index s !! node_name) ++ [h]]>
                     (name_index s);
                 link_signatures := link_signatures s;
                 next_handle := wrap64 (h + 1) |})
      end
  end.

(** The loop of [add_link] that verifies the outgoing handles. *)
Fixpoint outgoing_exist (m : gmap N rwkv_atom) (og : list N) : bool :=
  match og with
  | [] => true
  | h :: og' =>
      match m !! h with
      | None => false
      | Some _ => outgoing_exist m og'
      end
  end.

(** The element-wise comparison, run once the sizes are equal. *)
Fixpoint outgoing_equal (xs ys : list N) : bool :=
  match xs, ys with
  | x :: xs', y :: ys' => if x =? y then outgoing_equal xs' ys' else false
  | _, _ => true
  end.

Definition link_matches (ty : rwkv_atom_type_t) (og : list N) (a : rwkv_atom) : bool :=
  bool_decide (type a = ty)
  && (length (outgoing a) =? length og)%nat
  && outgoing_equal (outgoing a) og.

(** The scan of [add_link] for the stored link. *)
Fixpoint find_link (ty : rwkv_atom_type_t) (og : list N)
    (l : list (N * rwkv_atom)) : option N :=
  match l with
  | [] => None
  | (h, a) :: l' => if link_matches ty og a then Some h else find_link ty og l'
  end.

Section Store.
Context {T : Traversal}.

(** [outgoing], [outgoing_count] are the list and its length. *)
Definition rwkv_atomspace_add_link (s : rwkv_atomspace) (ty : rwkv_atom_type_t)
    (og : list N) : N * rwkv_atomspace :=
  if (length og =? 0)%nat || negb (is_link_type ty) then (RWKV_INVALID_ATOM_HANDLE, s) else
  if negb (outgoing_exist (atoms s) og) then (RWKV_INVALID_ATOM_HANDLE, s) else
  let signature := create_link_signature ty og in
  match (if decide (signature ∈ link_signatures s)
         then find_link ty og (iteration (atoms s)) else None) with
  | Some h => (h, s)
  | None =>
      let h := next_handle s in
      let atom := with_outgoing (new_atom h ty) og in
      (h, {| atoms := <[h := atom]> (atoms s);
             name_index := name_index s;
             link_signatures := {[signature]} ∪ link_signatures s;
             next_handle := wrap64 (h + 1) |})
  end.

End Store.

(** ** Retrieval and annotation accessors *)

(** [get_atom] returns a pointer into the store: the atom at the handle, or
    null.  A write through that pointer is [store_atom]. *)
Definition rwkv_atomspace_get_atom (s : rwkv_atomspace) (h : N) : option rwkv_atom :=
  if h =? RWKV_INVALID_ATOM_HANDLE then None else atoms s !! h.

Definition store_atom (s : rwkv_atomspace) (h : N) (a : rwkv_atom) : rwkv_atomspace :=
  {| atoms := <[h := a]> (atoms s);
     name_index := name_index s;
     link_signatures := link_signatures s;
     next_handle := next_handle s |}.

Definition clamp01 (x : F32.float) : F32.float :=
  F32.max F32.zero (F32.min F32.one x).

(** The atom after [rwkv_atom_set_truth_value(atom, tv)] (which returns
    true, both pointers being non-null). *)
Definition rwkv_atom_set_truth_value (a : rwkv_atom) (v : rwkv_truth_value_t) : rwkv_atom :=
  {| handle := handle a; type := type a; name := name a; outgoing := outgoing a;
     tv := mk_tv (clamp01 (strength v)) (clamp01 (confidence v));
     av := av a |}.

Definition rwkv_atom_get_truth_value (a : rwkv_atom) : rwkv_truth_value_t := tv a.

Definition rwkv_atom_set_attention_value (a : rwkv_atom) (v : rwkv_attention_value_t) : rwkv_atom :=
  {| handle := handle a; type := type a; name := name a; outgoing := outgoing a;
     tv := tv a; av := v |}.

Definition rwkv_atom_get_attention_value (a : rwkv_atom) : rwkv_attention_value_t := av a.

Definition rwkv_atom_get_type (a : rwkv_atom) : rwkv_atom_type_t := type a.

Definition rwkv_atom_get_name (a : rwkv_atom) : option string :=
  if is_link_type (type a) then None else Some (name a).

Definition rwkv_atom_get_outgoing (a : rwkv_atom) (max_count : nat) : list N :=
  if is_link_type (type a) then take (Nat.min max_count (length (outgoing a))) (outgoing a)
  else [].

(** ** Pattern matching and forward inference *)

(** The scan of [pattern_match]; [results] holds the entries written so
    far, [count] being its length. *)
Fixpoint pattern_scan (pty : rwkv_atom_type_t) (pattern : N) (max_results : nat)
    (l : list (N * rwkv_atom)) (results : list N) : list N :=
  match l with
  | [] => results
  | (h, a) :: l' =>
      if (max_results <=? length results)%nat then results else
      if bool_decide (type a = pty) && negb (h =? pattern)
      then pattern_scan pty pattern max_results l' (results ++ [h])
      else pattern_scan pty pattern max_results l' results
  end.

(** The scan of [forward_inference]. *)
Fixpoint inference_scan (premise : N) (max_conclusions : nat)
    (l : list (N * rwkv_atom)) (conclusions : list N) : list N :=
  match l with
  | [] => conclusions
  | (_, a) :: l' =>
      if (max_conclusions <=? length conclusions)%nat then conclusions else
      if bool_decide (type a = RWKV_ATOM_IMPLICATION_LINK)
         && (length (outgoing a) =? 2)%nat
         && bool_decide (outgoing a !! 0%nat = Some premise)
      then inference_scan premise max_conclusions l'
             (conclusions ++ [default 0 (outgoing a !! 1%nat)])
      else inference_scan premise max_conclusions l' conclusions
  end.

Section Queries.
Context {T : Traversal}.

(** The entries written to [results]; the returned count is their number. *)
Definition rwkv_atomspace_pattern_match (s : rwkv_atomspace) (pattern : N)
    (max_results : nat) : list N :=
  if pattern =? RWKV_INVALID_ATOM_HANDLE then [] else
  match atoms s !! pattern with
  | None => []
  | Some pattern_atom =>
      pattern_scan (type pattern_atom) pattern max_results (iteration (atoms s)) []
  end.

(** [None] is the return value false; [Some cs] is true with [cs] written
    to [conclusions] and its length to [*num_conclusions]. *)
Definition rwkv_atomspace_forward_inference (s : rwkv_atomspace) (premise : N)
    (max_conclusions : nat) : option (list N) :=
  if premise =? RWKV_INVALID_ATOM_HANDLE then None else
  Some (inference_scan premise max_conclusions (iteration (atoms s)) []).

(** ** Statistics *)

Definition rwkv_atomspace_get_size (s : rwkv_atomspace) : nat := size (atoms s).

Definition rwkv_atomspace_get_node_count (s : rwkv_atomspace) : nat :=
  fold_left (λ count '(_, a), if is_node_type (type a) then S count else count)
    (iteration (atoms s)) 0%nat.

Definition rwkv_atomspace_get_link_count (s : rwkv_atomspace) : nat :=
  fold_left (λ count '(_, a), if is_link_type (type a) then S count else count)
    (iteration (atoms s)) 0%nat.

End Queries.

(** ** The state bridge *)

(** [std::stoul] in base 10 on a 64-bit [unsigned long]: leading white
    space, an optional sign, then digits up to the first other character.
    [None] stands for the two exceptions ([std::invalid_argument] when no
    digit is read, [std::out_of_range] when the digits exceed 2^64 - 1);
    a minus sign negates the value modulo 2^64. *)
Definition is_space (c : ascii) : bool :=
  let n := N_of_ascii c in (n =? 32) || ((9 <=? n) && (n <=? 13)).

Definition digit_value (c : ascii) : option N :=
  let n := N_of_ascii c in
  if (48 <=? n) && (n <=? 57) then Some (n - 48) else None.

Fixpoint skip_spaces (str : string) : string :=
  match str with
  | String c str' => if is_space c then skip_spaces str' else str
  | EmptyString => str
  end.

Fixpoint read_digits (str : string) (acc : N) : N :=
  match str with
  | String c str' =>
      match digit_value c with
      | Some d => read_digits str' (acc * 10 + d)
      | None => acc
      end
  | EmptyString => acc
  end.

Definition starts_with_digit (str : string) : bool :=
  match str with
  | String c _ => bool_decide (is_Some (digit_value c))
  | EmptyString => false
  end.

Definition stoul (str : string) : option N :=
  let str := skip_spaces str in
  let '(negative, str) :=
    match str with
    | String "-"%char str' => (true, str')
    | String "+"%char str' => (false, str')
    | _ => (false, str)
    end in
  if negb (starts_with_digit str) then None else
  let v := read_digits str 0 in
  if uint64_modulus <=? v then None else
  Some (if negative then wrap64 (uint64_modulus - v) else v).

(** The body of the loop of [rwkv_context_to_atoms] at index [i]. *)
Definition encode_entry (i : nat) (x : F32.float) (s : rwkv_atomspace) : rwkv_atomspace :=
  if F32.lt F32.tenth (F32.abs x) then
    let concept_name := "state_" +:+ pretty i in
    let '(h, s) := rwkv_atomspace_add_node s RWKV_ATOM_CONCEPT_NODE (Some concept_name) in
    if h =? RWKV_INVALID_ATOM_HANDLE then s else
    match rwkv_atomspace_get_atom s h with
    | None => s
    | Some atom =>
        let atom := rwkv_atom_set_truth_value atom (mk_tv (F32.abs x) F32.four_fifths) in
        let atom := rwkv_atom_set_attention_value atom
                      (mk_av (if F32.lt F32.zero x then x else F32.zero) F32.zero F32.zero) in
        store_atom s h atom
    end
  else s.

Fixpoint encode_loop (i : nat) (state : list F32.float) (s : rwkv_atomspace) : rwkv_atomspace :=
  match state with
  | [] => s
  | x :: state' => encode_loop (S i) state' (encode_entry i x s)
  end.

(** The store after [rwkv_context_to_atoms] (which returns true);
    [state_len] is the length of [state]. *)
Definition rwkv_context_to_atoms (s : rwkv_atomspace) (state : list F32.float) : rwkv_atomspace :=
  encode_loop 0 (take (Nat.min (length state) 100) state) s.

(** The body of the loop of [rwkv_atoms_to_context] at one atom. *)
Definition decode_entry (a : rwkv_atom) (state : list F32.float) : list F32.float :=
  if bool_decide (type a = RWKV_ATOM_CONCEPT_NODE) && String.prefix "state_" (name a) then
    match stoul (String.substring 6 (String.length (name a) - 6) (name a)) with
    | Some index =>
        if index <? N.of_nat (length state)
        then <[N.to_nat index :=
                 F32.mul (strength (tv a))
                   (if F32.lt F32.zero (sti (av a)) then F32.one else F32.minus_one)]> state
        else state
    | None => state
    end
  else state.

Section Bridge.
Context {T : Traversal}.

(** The buffer after [rwkv_atoms_to_context] (which returns true). *)
Definition rwkv_atoms_to_context (s : rwkv_atomspace) (state_len : nat) : list F32.float :=
  fold_left (λ state '(_, a), decode_entry a state) (iteration (atoms s))
    (replicate state_len F32.zero).

End Bridge.

(** ** Reachable stores *)

Section Reachable.
Context {T : Traversal}.

(** What a client can do to a store: create it, add nodes and links, and
    write truth or attention values through a pointer from [get_atom]. *)
Inductive reachable : rwkv_atomspace → Prop :=
  | reachable_create : reachable rwkv_atomspace_create
  | reachable_add_node s ty nm :
      reachable s → reachable (rwkv_atomspace_add_node s ty nm).2
  | reachable_add_link s ty og :
      reachable s → reachable (rwkv_atomspace_add_link s ty og).2
  | reachable_set_truth_value s h a v :
      reachable s → rwkv_atomspace_get_atom s h = Some a →
      reachable (store_atom s h (rwkv_atom_set_truth_value a v))
  | reachable_set_attention_value s h a v :
      reachable s → rwkv_atomspace_get_atom s h = Some a →
      reachable (store_atom s h (rwkv_atom_set_attention_value a v)).

End Reachable.

(** The store has room: fewer than 2^64 - 1 atoms, so the handle counter
    has not wrapped.  (Every atom occupies more than one byte of a 64-bit
    address space.) *)
Definition has_room (s : rwkv_atomspace) : Prop :=
  N.of_nat (size (atoms s)) < uint64_modulus - 1.

(** The invariant of reachable stores with room. *)
Record wf (s : rwkv_atomspace) : Prop := {
  wf_next : next_handle s = N.of_nat (size (atoms s)) + 1;
  wf_room : next_handle s < uint64_modulus;
  wf_keys : ∀ h a, atoms s !! h = Some a → 1 ≤ h < next_handle s;
  wf_handle : ∀ h a, atoms s !! h = Some a → handle a = h;
  wf_index_sound : ∀ n hs h, name_index s !! n = Some hs → h ∈ hs →
    ∃ a, atoms s !! h = Some a ∧ name a = n ∧ is_node_type (type a) = true;
  wf_index_complete : ∀ h a, atoms s !! h = Some a → is_node_type (type a) = true →
    ∃ hs, name_index s !! name a = Some hs ∧ h ∈ hs;
  wf_node_unique : ∀ h1 a1 h2 a2,
    atoms s !! h1 = Some a1 → atoms s !! h2 = Some a2 →
    is_node_type (type a1) = true → type a1 = type a2 → name a1 = name a2 → h1 = h2;
  wf_signature : ∀ h a, atoms s !! h = Some a → is_link_type (type a) = true →
    create_link_signature (type a) (outgoing a) ∈ link_signatures s;
  wf_link_unique : ∀ h1 a1 h2 a2,
    atoms s !! h1 = Some a1 → atoms s !! h2 = Some a2 →
    is_link_type (type a1) = true → type a1 = type a2 → outgoing a1 = outgoing a2 → h1 = h2;
  wf_outgoing : ∀ h a x, atoms s !! h = Some a → x ∈ outgoing a →
    is_Some (atoms s !! x)
}.

(** ** Notions used in the statements *)

(** The store after a new node, respectively a new link, is inserted. *)
Definition node_inserted (s : rwkv_atomspace) (ty : rwkv_atom_type_t) (n : string) :
    rwkv_atomspace :=
  {| atoms := <[next_handle s := with_name (new_atom (next_handle s) ty) n]> (atoms s);
     name_index := <[n := default [] (name_index s !! n) ++ [next_handle s]]> (name_index s);
     link_signatures := link_signatures s;
     next_handle := wrap64 (next_handle s + 1) |}.

Definition link_inserted (s : rwkv_atomspace) (ty : rwkv_atom_type_t) (og : list N) :
    rwkv_atomspace :=
  {| atoms := <[next_handle s := with_outgoing (new_atom (next_handle s) ty) og]> (atoms s);
     name_index := name_index s;
     link_signatures := {[create_link_signature ty og]} ∪ link_signatures s;
     next_handle := wrap64 (next_handle s + 1) |}.

(** A call that returned [r] from the store [s] has created an atom: the
    handle returned is valid and was not stored in [s], it lies above every
    handle stored in [s], being the number of atoms of [s] plus one, the
    atoms of [s] are stored in the store of [r] under their handles, and so
    is the new atom under the handle returned. *)
Definition issued_anew (s : rwkv_atomspace) (r : N * rwkv_atomspace) : Prop :=
  r.1 ≠ RWKV_INVALID_ATOM_HANDLE ∧ atoms s !! r.1 = None
  ∧ r.1 = N.of_nat (rwkv_atomspace_get_size s) + 1
  ∧ (∀ h a, atoms s !! h = Some a → h < r.1 ∧ atoms r.2 !! h = Some a)
  ∧ ∃ a, atoms r.2 !! r.1 = Some a ∧ handle a = r.1.

(** The atoms that [pattern_match] is to report for a pattern of type
    [pty] at handle [pattern]. *)
Definition type_match (pty : rwkv_atom_type_t) (pattern : N) (p : N * rwkv_atom) : Prop :=
  type p.2 = pty ∧ p.1 ≠ pattern.

#[global] Instance type_match_dec pty pattern p : Decision (type_match pty pattern p).
Proof. unfold type_match. apply _. Defined.

(** The links from which [forward_inference] is to conclude: implication
    links of two elements whose first is the premise. *)
Definition implies_from (premise : N) (p : N * rwkv_atom) : Prop :=
  type p.2 = RWKV_ATOM_IMPLICATION_LINK ∧ length (outgoing p.2) = 2%nat
  ∧ outgoing p.2 !! 0%nat = Some premise.

#[global] Instance implies_from_dec premise p : Decision (implies_from premise p).
Proof. unfold implies_from. apply _. Defined.

Definition conclusion (p : N * rwkv_atom) : N := default 0 (outgoing p.2 !! 1%nat).

(** A node, respectively a link, of the given identity is stored. *)
Definition node_stored (s : rwkv_atomspace) (ty : rwkv_atom_type_t) (n : string) : Prop :=
  ∃ h a, atoms s !! h = Some a ∧ type a = ty ∧ name a = n.

Definition link_stored (s : rwkv_atomspace) (ty : rwkv_atom_type_t) (og : list N) : Prop :=
  ∃ h a, atoms s !! h = Some a ∧ type a = ty ∧ outgoing a = og.

(** [y] is [x] clamped into [0, 1]: it lies in the interval, equals [x]
    (as a number) when [x] lies there, and is the bound that [x] exceeds
    otherwise. *)
Definition in_unit (x : F32.float) : bool := F32.le F32.zero x && F32.le x F32.one.

Definition clamped (x y : F32.float) : Prop :=
  in_unit y = true
  ∧ (in_unit x = true → F32.eqb y x = true)
  ∧ (F32.lt F32.one x = true → y = F32.one)
  ∧ (F32.lt x F32.zero = true → y = F32.zero).

(** A state entry that [rwkv_context_to_atoms] is to leave out: of
    magnitude at most [0.1f]. *)
Definition insignificant (x : F32.float) : Prop := F32.le (F32.abs x) F32.tenth = true.

(** The state vector of the given length with [0.5] at index 3 and zeros
    elsewhere. *)
Definition spike (state_len : nat) : list F32.float :=
  <[3%nat := F32.half]> (replicate state_len F32.zero).

(** The atom and the store that encoding [spike] into a new store yields. *)
Definition spike_atom : rwkv_atom :=
  {| handle := 1; type := RWKV_ATOM_CONCEPT_NODE; name := "state_3"; outgoing := [];
     tv := mk_tv F32.half F32.four_fifths;
     av := mk_av F32.half F32.zero F32.zero |}.

Definition spike_store : rwkv_atomspace :=
  {| atoms := {[1 := spike_atom]}; name_index := {["state_3" := [1]]};
     link_signatures := ∅; next_handle := 2 |}.

(** ** Notions used in the further statements *)

(** A stored atom is either a node, without outgoing handles, or a link,
    with some and without a name. *)
Definition atom_shaped (a : rwkv_atom) : Prop :=
  if is_node_type (type a) then outgoing a = []
  else outgoing a ≠ [] ∧ name a = "".

(** A truth value that [rwkv_atom_set_truth_value] would store as it is. *)
Definition tv_settled (v : rwkv_truth_value_t) : Prop :=
  clamp01 (strength v) = strength v ∧ clamp01 (confidence v) = confidence v.

(** Every atom of the map is shaped, carries a settled truth value and
    refers to handles of the map only. *)
Definition atoms_ok (m : gmap N rwkv_atom) : Prop :=
  ∀ h a, m !! h = Some a →
    atom_shaped a ∧ tv_settled (tv a) ∧ ∀ x, x ∈ outgoing a → is_Some (m !! x).

(** The index that the loop of [rwkv_atoms_to_context] writes for an atom
    (when it lies within the buffer), and the value it writes there. *)
Definition decode_target (a : rwkv_atom) : option N :=
  if bool_decide (type a = RWKV_ATOM_CONCEPT_NODE) && String.prefix "state_" (name a)
  then stoul (String.substring 6 (String.length (name a) - 6) (name a))
  else None.

Definition decode_value (a : rwkv_atom) : F32.float :=
  F32.mul (strength (tv a))
    (if F32.lt F32.zero (sti (av a)) then F32.one else F32.minus_one).

(** The atom that [rwkv_context_to_atoms] leaves under handle [h] for the
    entry [x] at index [i], and what encoding and decoding make of [x]. *)
Definition encoded_atom (h : N) (i : nat) (x : F32.float) : rwkv_atom :=
  {| handle := h; type := RWKV_ATOM_CONCEPT_NODE; name := "state_" +:+ pretty i;
     outgoing := [];
     tv := mk_tv (clamp01 (F32.abs x)) (clamp01 F32.four_fifths);
     av := mk_av (if F32.lt F32.zero x then x else F32.zero) F32.zero F32.zero |}.

Definition round_trip_value (x : F32.float) : F32.float :=
  if F32.lt F32.tenth (F32.abs x)
  then F32.mul (clamp01 (F32.abs x)) (if F32.lt F32.zero x then F32.one else F32.minus_one)
  else F32.zero.

(** The atoms of [m] are the encoded atoms of the significant entries of [l]. *)
Definition encodes (l : list F32.float) (m : gmap N rwkv_atom) : Prop :=
  (∀ h a, m !! h = Some a →
     ∃ j x, l !! j = Some x ∧ F32.lt F32.tenth (F32.abs x) = true
            ∧ a = encoded_atom h j x)
  ∧ (∀ j x, l !! j = Some x → F32.lt F32.tenth (F32.abs x) = true →
     ∃ h, m !! h = Some (encoded_atom h j x)).

(** Strings of decimal digits. *)
Fixpoint all_digits (str : string) : bool :=
  match str with
  | EmptyString => true
  | String c str' => bool_decide (is_Some (digit_value c)) && all_digits str'
  end.

(** What [create_link_signature] appends to the type prefix: the handles
    in decimal, separated by commas. *)
Fixpoint signature_body (i : nat) (og : list N) : string :=
  match og with
  | [] => ""
  | h :: og' =>
      match i with
      | O => pretty h +:+ signature_body (S i) og'
      | S _ => String ","%char (pretty h +:+ signature_body (S i) og')
      end
  end.

(** A text at which a run of digits ends: the empty one, or one that
    begins with another character. *)
Definition stops (str : string) : Prop :=
  match str with
  | EmptyString => True
  | String c _ => digit_value c = None
  end.

(** Every signature of the index is the signature of a stored link. *)
Definition signatures_sound (s : rwkv_atomspace) : Prop :=
  ∀ sig, sig ∈ link_signatures s →
    ∃ h a, atoms s !! h = Some a ∧ is_link_type (type a) = true
           ∧ sig = create_link_signature (type a) (outgoing a).

(** Two atoms that differ in their truth and attention values at most. *)
Definition same_identity (a a' : rwkv_atom) : Prop :=
  handle a' = handle a ∧ type a' = type a ∧ name a' = name a
  ∧ outgoing a' = outgoing a.

(** ** Sample stores *)

(** Two concept nodes; a third one; two implications in a chain. *)
Definition two_nodes : rwkv_atomspace :=
  (rwkv_atomspace_add_node
     (rwkv_atomspace_add_node rwkv_atomspace_create RWKV_ATOM_CONCEPT_NODE (Some "Cat")).2
     RWKV_ATOM_CONCEPT_NODE (Some "Animal")).2.

Definition three_nodes : rwkv_atomspace :=
  (rwkv_atomspace_add_node two_nodes RWKV_ATOM_CONCEPT_NODE (Some "Being")).2.

Definition chain : rwkv_atomspace :=
  (rwkv_atomspace_add_link
     (rwkv_atomspace_add_link three_nodes RWKV_ATOM_IMPLICATION_LINK [1; 2]).2
     RWKV_ATOM_IMPLICATION_LINK [2; 3]).2.

(** [three_nodes] and a predicate node. *)
Definition menagerie : rwkv_atomspace :=
  (rwkv_atomspace_add_node three_nodes RWKV_ATOM_PREDICATE_NODE (Some "Red")).2.

(** The first implication of [chain]; a concept node as the encoder names
    it. *)
Definition chain_link : rwkv_atom :=
  with_outgoing (new_atom 4 RWKV_ATOM_IMPLICATION_LINK) [1; 2].

Definition state_seven : rwkv_atom :=
  with_name (new_atom 1 RWKV_ATOM_CONCEPT_NODE) "state_7".

Definition cat_node : rwkv_atom :=
  with_name (new_atom 1 RWKV_ATOM_CONCEPT_NODE) "Cat".

(** * Properties *)

(** ** Arithmetic of the handle counter *)

Lemma uint64_modulus_eq : uint64_modulus = 18446744073709551616.
Proof. reflexivity. Qed.

Lemma wrap64_small x : x < uint64_modulus → wrap64 x = x.
Proof. intros Hx. unfold wrap64. by apply N.mod_small. Qed.

(** ** The two kinds of type *)

Lemma is_link_type_node ty : is_node_type ty = true → is_link_type ty = false.
Proof. unfold is_link_type. by intros ->. Qed.

Lemma is_node_type_link ty : is_link_type ty = true → is_node_type ty = false.
Proof. unfold is_link_type. by destruct (is_node_type ty). Qed.

(** ** The traversal visits every entry once *)

Section Traversal_facts.
Context {T : Traversal}.

Lemma elem_of_iteration (m : gmap N rwkv_atom) h a :
  (h, a) ∈ iteration m ↔ m !! h = Some a.
Proof. rewrite (iteration_perm m). apply elem_of_map_to_list. Qed.

Lemma NoDup_iteration (m : gmap N rwkv_atom) : NoDup (iteration m).
Proof. rewrite (iteration_perm m). apply NoDup_map_to_list. Qed.

Lemma NoDup_fst_iteration (m : gmap N rwkv_atom) : NoDup (iteration m).*1.
Proof. rewrite (iteration_perm m). apply NoDup_fst_map_to_list. Qed.

Lemma length_iteration (m : gmap N rwkv_atom) : length (iteration m) = size m.
Proof. rewrite (iteration_perm m). apply length_map_to_list. Qed.

Lemma iteration_empty : iteration (∅ : gmap N rwkv_atom) = [].
Proof.
  apply Permutation_nil_r. rewrite (iteration_perm ∅). by rewrite map_to_list_empty.
Qed.

Lemma iteration_singleton h a : iteration ({[h := a]} : gmap N rwkv_atom) = [(h, a)].
Proof.
  apply Permutation_singleton_r. rewrite (iteration_perm _).
  by rewrite map_to_list_singleton.
Qed.

End Traversal_facts.

(** ** The loops of creation *)

Lemma outgoing_equal_spec xs ys :
  length xs = length ys → outgoing_equal xs ys = true ↔ xs = ys.
Proof.
  revert ys. induction xs as [|x xs IH]; intros [|y ys] Hlen; simplify_eq/=; [done|].
  destruct (N.eqb_spec x y) as [->|Hne].
  - rewrite IH by done. split; congruence.
  - split; [done | congruence].
Qed.

Lemma link_matches_spec ty og a :
  link_matches ty og a = true ↔ type a = ty ∧ outgoing a = og.
Proof.
  unfold link_matches. rewrite !andb_true_iff, bool_decide_eq_true, Nat.eqb_eq.
  split.
  - intros [[Hty Hlen] Heq]. split; [done|]. by apply outgoing_equal_spec.
  - intros [Hty <-]. split_and!; [done..|]. by apply outgoing_equal_spec.
Qed.

Lemma find_link_Some ty og l h :
  find_link ty og l = Some h →
  ∃ a, (h, a) ∈ l ∧ type a = ty ∧ outgoing a = og.
Proof.
  induction l as [|[h' a'] l IH]; simpl; [done|].
  destruct (link_matches ty og a') eqn:Hm.
  - intros [= <-]. apply link_matches_spec in Hm. exists a'. split; [left | done].
  - intros Hf. destruct (IH Hf) as (a & Hin & Ha). exists a. split; [by right | done].
Qed.

Lemma find_link_None ty og l h a :
  find_link ty og l = None → (h, a) ∈ l → ¬ (type a = ty ∧ outgoing a = og).
Proof.
  induction l as [|[h' a'] l IH]; simpl; [by intros _ ?%elem_of_nil|].
  destruct (link_matches ty og a') eqn:Hm; [done|].
  intros Hf [[= -> ->]|Hin]%elem_of_cons.
  - rewrite <- link_matches_spec. by rewrite Hm.
  - by apply IH.
Qed.

Lemma find_node_of_type_Some m ty hs h :
  find_node_of_type m ty hs = Some h →
  h ∈ hs ∧ ∃ a, m !! h = Some a ∧ type a = ty.
Proof.
  induction hs as [|h' hs IH]; simpl; [done|].
  destruct (m !! h') as [a'|] eqn:Hl.
  - destruct (decide (type a' = ty)) as [Hty|Hty].
    + intros [= <-]. split; [left | eauto].
    + intros [Hin Ha]%IH. split; [by right | done].
  - intros [Hin Ha]%IH. split; [by right | done].
Qed.

Lemma find_node_of_type_None m ty hs h a :
  find_node_of_type m ty hs = None → h ∈ hs → m !! h = Some a → type a ≠ ty.
Proof.
  induction hs as [|h' hs IH]; simpl; [by intros _ ?%elem_of_nil|].
  intros Hf [->|Hin]%elem_of_cons Hl.
  - rewrite Hl in Hf. by destruct (decide (type a = ty)).
  - apply IH; [|done..]. destruct (m !! h') as [a'|]; [|done].
    by destruct (decide (type a' = ty)).
Qed.

(** The lookup is stable when the map grows by entries of other types
    or at other handles. *)
Lemma find_node_of_type_app m ty hs hs' :
  find_node_of_type m ty (hs ++ hs') =
  match find_node_of_type m ty hs with
  | Some h => Some h
  | None => find_node_of_type m ty hs'
  end.
Proof.
  induction hs as [|h hs IH]; simpl; [done|].
  destruct (m !! h) as [a|]; [|done]. by destruct (decide (type a = ty)).
Qed.

Lemma find_node_of_type_ext m m' ty hs :
  (∀ h, h ∈ hs → m' !! h = m !! h) →
  find_node_of_type m' ty hs = find_node_of_type m ty hs.
Proof.
  induction hs as [|h hs IH]; simpl; [done|]. intros Hext.
  rewrite (Hext h) by left. rewrite IH; [done|]. intros h' Hin. apply Hext. by right.
Qed.

Lemma outgoing_exist_spec m og :
  outgoing_exist m og = true ↔ ∀ h, h ∈ og → is_Some (m !! h).
Proof.
  induction og as [|h og IH]; simpl.
  - split; [by intros _ h ?%elem_of_nil | done].
  - destruct (m !! h) as [a|] eqn:Hl.
    + rewrite IH. split.
      * intros Hall h' [->|Hin]%elem_of_cons; [by rewrite Hl | by apply Hall].
      * intros Hall h' Hin. apply Hall. by right.
    + split; [done|]. intros Hall. destruct (Hall h) as [? Hs]; [left|]. congruence.
Qed.

(** ** The outcomes of [add_node] and [add_link] *)

Lemma add_node_cases s ty nm :
  (rwkv_atomspace_add_node s ty nm = (0, s) ∧ (nm = None ∨ is_node_type ty = false))
  ∨ (∃ n hs h, nm = Some n ∧ is_node_type ty = true ∧
       name_index s !! n = Some hs ∧ find_node_of_type (atoms s) ty hs = Some h ∧
       rwkv_atomspace_add_node s ty nm = (h, s))
  ∨ (∃ n, nm = Some n ∧ is_node_type ty = true ∧
       name_index s !! n ≫= find_node_of_type (atoms s) ty = None ∧
       rwkv_atomspace_add_node s ty nm = (next_handle s, node_inserted s ty n)).
Proof.
  unfold rwkv_atomspace_add_node. destruct nm as [n|]; [|left; auto].
  destruct (is_node_type ty) eqn:Hty; simpl; [|left; auto]. right.
  destruct (name_index s !! n ≫= find_node_of_type (atoms s) ty) as [h|] eqn:Hf.
  - left. destruct (name_index s !! n) as [hs|] eqn:Hi; [|done].
    exists n, hs, h. by rewrite Hi.
  - right. exists n. by rewrite Hf.
Qed.

Section Link_cases.
Context {T : Traversal}.

Lemma add_link_cases s ty og :
  (rwkv_atomspace_add_link s ty og = (0, s) ∧
     (og = [] ∨ is_link_type ty = false ∨ outgoing_exist (atoms s) og = false))
  ∨ (∃ h, og ≠ [] ∧ is_link_type ty = true ∧ outgoing_exist (atoms s) og = true ∧
       create_link_signature ty og ∈ link_signatures s ∧
       find_link ty og (iteration (atoms s)) = Some h ∧
       rwkv_atomspace_add_link s ty og = (h, s))
  ∨ (og ≠ [] ∧ is_link_type ty = true ∧ outgoing_exist (atoms s) og = true ∧
       (create_link_signature ty og ∉ link_signatures s ∨
        find_link ty og (iteration (atoms s)) = None) ∧
       rwkv_atomspace_add_link s ty og = (next_handle s, link_inserted s ty og)).
Proof.
  unfold rwkv_atomspace_add_link. destruct og as [|x og]; [left; auto|].
  destruct (is_link_type ty) eqn:Hty; simpl; [|left; auto].
  destruct (outgoing_exist (atoms s) (x :: og)) eqn:Hex; simpl in *;
    rewrite Hex; simpl; [|left; auto]. right.
  destruct (decide (create_link_signature ty (x :: og) ∈ link_signatures s)) as [Hs|Hs].
  - destruct (find_link ty (x :: og) (iteration (atoms s))) as [h|] eqn:Hf.
    + left. exists h. split_and!; done.
    + right. split_and!; auto.
  - right. split_and!; auto.
Qed.

End Link_cases.

(** ** The invariant is kept *)

Lemma wf_create : wf rwkv_atomspace_create.
Proof.
  split; simpl; try (intros; simplify_map_eq; fail).
  - by rewrite map_size_empty.
  - by rewrite uint64_modulus_eq.
Qed.

Lemma wf_fresh s : wf s → atoms s !! next_handle s = None.
Proof.
  intros Hwf. destruct (atoms s !! next_handle s) as [a|] eqn:E; [|done].
  apply (wf_keys _ Hwf) in E. lia.
Qed.

Lemma wf_no_node s ty n h a :
  wf s → name_index s !! n ≫= find_node_of_type (atoms s) ty = None →
  atoms s !! h = Some a → is_node_type (type a) = true → name a = n → type a ≠ ty.
Proof.
  intros Hwf Hnone Hl Hnode <-.
  destruct (wf_index_complete _ Hwf _ _ Hl Hnode) as (hs & Hi & Hin).
  rewrite Hi in Hnone. simpl in Hnone. by eapply find_node_of_type_None.
Qed.

Lemma wf_node_inserted s ty n :
  wf s → is_node_type ty = true →
  name_index s !! n ≫= find_node_of_type (atoms s) ty = None →
  has_room (node_inserted s ty n) → wf (node_inserted s ty n).
Proof.
  intros Hwf Hty Hnone Hroom.
  pose proof (wf_fresh _ Hwf) as Hfresh. pose proof (wf_next _ Hwf) as Hnext.
  unfold has_room in Hroom. simpl in Hroom.
  rewrite map_size_insert_None, uint64_modulus_eq in Hroom by done.
  assert (Hw : wrap64 (next_handle s + 1) = next_handle s + 1)
    by (apply wrap64_small; rewrite uint64_modulus_eq; lia).
  split; simpl; rewrite ?Hw.
  - rewrite map_size_insert_None by done. lia.
  - rewrite uint64_modulus_eq. lia.
  - intros h a [[<- <-]|[Hne Hl]]%lookup_insert_Some; [lia|].
    apply (wf_keys _ Hwf) in Hl. lia.
  - intros h a [[<- <-]|[Hne Hl]]%lookup_insert_Some; [done|].
    by apply (wf_handle _ Hwf) in Hl.
  - intros n' hs h [[<- <-]|[Hne Hi]]%lookup_insert_Some Hin.
    + apply elem_of_app in Hin as [Hin | ->%list_elem_of_singleton].
      * destruct (name_index s !! n) as [hs|] eqn:Hi; simpl in Hin;
          [|by apply elem_of_nil in Hin].
        destruct (wf_index_sound _ Hwf _ _ _ Hi Hin) as (a & Hl & Ha).
        exists a. split; [|done]. rewrite lookup_insert_ne; [done|]. congruence.
      * eexists. rewrite lookup_insert_eq. done.
    + destruct (wf_index_sound _ Hwf _ _ _ Hi Hin) as (a & Hl & Ha).
      exists a. split; [|done]. rewrite lookup_insert_ne; [done|]. congruence.
  - intros h a [[<- <-]|[Hne Hl]]%lookup_insert_Some Hnode; simpl.
    + eexists. rewrite lookup_insert_eq. split; [done|]. set_solver.
    + destruct (wf_index_complete _ Hwf _ _ Hl Hnode) as (hs & Hi & Hin).
      destruct (decide (n = name a)) as [->|Hn].
      * eexists. rewrite lookup_insert_eq. split; [done|]. rewrite Hi. set_solver.
      * exists hs. by rewrite lookup_insert_ne.
  - intros h1 a1 h2 a2 [[<- <-]|[Hne1 Hl1]]%lookup_insert_Some
      [[<- <-]|[Hne2 Hl2]]%lookup_insert_Some; simpl; intros Hnode Htype Hname;
      [done| | |by eapply (wf_node_unique _ Hwf)].
    + exfalso. eapply (wf_no_node s ty n h2 a2); eauto. by rewrite <- Htype.
    + exfalso. eapply (wf_no_node s ty n h1 a1); eauto.
  - intros h a [[<- <-]|[Hne Hl]]%lookup_insert_Some Hlink; simpl in *.
    + by rewrite (is_link_type_node _ Hty) in Hlink.
    + by apply (wf_signature _ Hwf _ _ Hl).
  - intros h1 a1 h2 a2 [[<- <-]|[Hne1 Hl1]]%lookup_insert_Some
      [[<- <-]|[Hne2 Hl2]]%lookup_insert_Some; simpl; intros Hlink Htype Hog;
      [done| | |by eapply (wf_link_unique _ Hwf)].
    + by rewrite (is_link_type_node _ Hty) in Hlink.
    + rewrite Htype in Hlink. simpl in Hlink.
      by rewrite (is_link_type_node _ Hty) in Hlink.
  - intros h a x [[<- <-]|[Hne Hl]]%lookup_insert_Some Hin; simpl in *.
    + by apply elem_of_nil in Hin.
    + destruct (wf_outgoing _ Hwf _ _ _ Hl Hin) as [b Hb].
      exists b. rewrite lookup_insert_ne; [done|]. congruence.
Qed.

Section Invariant.
Context {T : Traversal}.

Lemma wf_no_link s ty og h a :
  wf s → is_link_type ty = true →
  create_link_signature ty og ∉ link_signatures s ∨
    find_link ty og (iteration (atoms s)) = None →
  atoms s !! h = Some a → ¬ (type a = ty ∧ outgoing a = og).
Proof.
  intros Hwf Hty [Hsig|Hfind] Hl.
  - intros [<- <-]. apply Hsig. by eapply (wf_signature _ Hwf).
  - eapply find_link_None; [done|]. by apply elem_of_iteration.
Qed.

Lemma wf_link_inserted s ty og :
  wf s → is_link_type ty = true → outgoing_exist (atoms s) og = true →
  create_link_signature ty og ∉ link_signatures s ∨
    find_link ty og (iteration (atoms s)) = None →
  has_room (link_inserted s ty og) → wf (link_inserted s ty og).
Proof.
  intros Hwf Hty Hex Hnew Hroom.
  pose proof (wf_fresh _ Hwf) as Hfresh. pose proof (wf_next _ Hwf) as Hnext.
  pose proof (is_node_type_link _ Hty) as Hnot.
  unfold has_room in Hroom. simpl in Hroom.
  rewrite map_size_insert_None, uint64_modulus_eq in Hroom by done.
  assert (Hw : wrap64 (next_handle s + 1) = next_handle s + 1)
    by (apply wrap64_small; rewrite uint64_modulus_eq; lia).
  assert (Hold : ∀ h a, atoms s !! h = Some a →
            <[next_handle s := with_outgoing (new_atom (next_handle s) ty) og]>
              (atoms s) !! h = Some a).
  { intros h a Hl. rewrite lookup_insert_ne; [done|]. congruence. }
  split; simpl; rewrite ?Hw.
  - rewrite map_size_insert_None by done. lia.
  - rewrite uint64_modulus_eq. lia.
  - intros h a [[<- <-]|[Hne Hl]]%lookup_insert_Some; [lia|].
    apply (wf_keys _ Hwf) in Hl. lia.
  - intros h a [[<- <-]|[Hne Hl]]%lookup_insert_Some; [done|].
    by apply (wf_handle _ Hwf) in Hl.
  - intros n hs h Hi Hin.
    destruct (wf_index_sound _ Hwf _ _ _ Hi Hin) as (a & Hl & Ha). eauto.
  - intros h a [[<- <-]|[Hne Hl]]%lookup_insert_Some Hnode; simpl in *.
    + congruence.
    + by apply (wf_index_complete _ Hwf).
  - intros h1 a1 h2 a2 [[<- <-]|[Hne1 Hl1]]%lookup_insert_Some
      [[<- <-]|[Hne2 Hl2]]%lookup_insert_Some; simpl; intros Hnode Htype Hname;
      [done|congruence|congruence|by eapply (wf_node_unique _ Hwf)].
  - intros h a [[<- <-]|[Hne Hl]]%lookup_insert_Some Hlink; simpl in *.
    + apply elem_of_union_l. by apply elem_of_singleton.
    + apply elem_of_union_r. by apply (wf_signature _ Hwf _ _ Hl).
  - intros h1 a1 h2 a2 [[<- <-]|[Hne1 Hl1]]%lookup_insert_Some
      [[<- <-]|[Hne2 Hl2]]%lookup_insert_Some; simpl; intros Hlink Htype Hog;
      [done| | |by eapply (wf_link_unique _ Hwf)].
    + exfalso. by eapply (wf_no_link s ty og h2 a2).
    + exfalso. by eapply (wf_no_link s ty og h1 a1).
  - intros h a x [[<- <-]|[Hne Hl]]%lookup_insert_Some Hin; simpl in *.
    + destruct (proj1 (outgoing_exist_spec _ _) Hex x Hin) as [b Hb]. eauto.
    + destruct (wf_outgoing _ Hwf _ _ _ Hl Hin) as [b Hb]. eauto.
Qed.

(** A write through a pointer from [get_atom] that keeps the handle, type,
    name and outgoing list of the atom. *)
Lemma wf_store_atom s h a a' :
  wf s → atoms s !! h = Some a →
  handle a' = handle a → type a' = type a → name a' = name a →
  outgoing a' = outgoing a →
  wf (store_atom s h a').
Proof.
  intros Hwf Hl Hh Hty Hn Hog.
  assert (Hback : ∀ k b', <[h := a']> (atoms s) !! k = Some b' →
            ∃ b, atoms s !! k = Some b ∧ handle b' = handle b ∧ type b' = type b ∧
                 name b' = name b ∧ outgoing b' = outgoing b).
  { intros k b' [[<- <-]|[Hne Hk]]%lookup_insert_Some; eauto 10. }
  assert (Hforth : ∀ k b, atoms s !! k = Some b →
            ∃ b', <[h := a']> (atoms s) !! k = Some b' ∧ handle b' = handle b ∧
                  type b' = type b ∧ name b' = name b ∧ outgoing b' = outgoing b).
  { intros k b Hk. destruct (decide (h = k)) as [<-|Hne].
    - exists a'. rewrite lookup_insert_eq. by simplify_eq.
    - exists b. by rewrite lookup_insert_ne. }
  split; simpl.
  - rewrite map_size_insert_Some by done. apply (wf_next _ Hwf).
  - apply (wf_room _ Hwf).
  - intros k b' (b & Hk & _)%Hback. by apply (wf_keys _ Hwf) in Hk.
  - intros k b' (b & Hk & Hb & _)%Hback. rewrite Hb. by apply (wf_handle _ Hwf) in Hk.
  - intros n hs k Hi Hin.
    destruct (wf_index_sound _ Hwf _ _ _ Hi Hin) as (b & Hk & Hb1 & Hb2).
    destruct (Hforth _ _ Hk) as (b' & Hk' & _ & Et & En & _).
    exists b'. by rewrite Et, En.
  - intros k b' (b & Hk & _ & Et & En & _)%Hback. rewrite Et, En.
    by apply (wf_index_complete _ Hwf).
  - intros h1 a1 h2 a2 (b1 & Hk1 & _ & Et1 & En1 & _)%Hback
      (b2 & Hk2 & _ & Et2 & En2 & _)%Hback. rewrite Et1, Et2, En1, En2.
    by apply (wf_node_unique _ Hwf).
  - intros k b' (b & Hk & _ & Et & _ & Eo)%Hback. rewrite Et, Eo.
    by apply (wf_signature _ Hwf _ _ Hk).
  - intros h1 a1 h2 a2 (b1 & Hk1 & _ & Et1 & _ & Eo1)%Hback
      (b2 & Hk2 & _ & Et2 & _ & Eo2)%Hback. rewrite Et1, Et2, Eo1, Eo2.
    by apply (wf_link_unique _ Hwf).
  - intros k b' x (b & Hk & _ & _ & _ & Eo)%Hback. rewrite Eo. intros Hin.
    destruct (wf_outgoing _ Hwf _ _ _ Hk Hin) as [c Hc].
    destruct (Hforth _ _ Hc) as (c' & Hc' & _). eauto.
Qed.

Lemma get_atom_Some s h a :
  rwkv_atomspace_get_atom s h = Some a ↔ h ≠ 0 ∧ atoms s !! h = Some a.
Proof.
  unfold rwkv_atomspace_get_atom, RWKV_INVALID_ATOM_HANDLE.
  destruct (N.eqb_spec h 0) as [->|Hne].
  - split; [done | by intros [? _]].
  - split; [done | by intros [_ ?]].
Qed.

(** The store never shrinks. *)
Lemma add_node_size s ty nm :
  (size (atoms s) ≤ size (atoms (rwkv_atomspace_add_node s ty nm).2))%nat.
Proof.
  destruct (add_node_cases s ty nm) as [[-> _]|[(n & hs & h & _ & _ & _ & _ & ->)|
    (n & _ & _ & _ & ->)]]; simpl; [done..|].
  rewrite map_size_insert. destruct (atoms s !! next_handle s); simpl; lia.
Qed.

Lemma add_link_size s ty og :
  (size (atoms s) ≤ size (atoms (rwkv_atomspace_add_link s ty og).2))%nat.
Proof.
  destruct (add_link_cases s ty og) as [[-> _]|[(h & _ & _ & _ & _ & _ & ->)|
    (_ & _ & _ & _ & ->)]]; simpl; [done..|].
  rewrite map_size_insert. destruct (atoms s !! next_handle s); simpl; lia.
Qed.

Lemma wf_add_node s ty nm :
  wf s → has_room (rwkv_atomspace_add_node s ty nm).2 →
  wf (rwkv_atomspace_add_node s ty nm).2.
Proof.
  intros Hwf. destruct (add_node_cases s ty nm) as [[-> _]|[(n & hs & h & _ & _ & _ & _ & ->)|
    (n & _ & Hty & Hnone & ->)]]; simpl; [done..|].
  by apply wf_node_inserted.
Qed.

Lemma wf_add_link s ty og :
  wf s → has_room (rwkv_atomspace_add_link s ty og).2 →
  wf (rwkv_atomspace_add_link s ty og).2.
Proof.
  intros Hwf. destruct (add_link_cases s ty og) as [[-> _]|[(h & _ & _ & _ & _ & _ & ->)|
    (_ & Hty & Hex & Hnew & ->)]]; simpl; [done..|].
  by apply wf_link_inserted.
Qed.

(** Every store a client can build satisfies the invariant, as long as it
    has room. *)
Lemma reachable_wf s : reachable s → has_room s → wf s.
Proof.
  induction 1 as [|s ty nm Hs IH|s ty og Hs IH|s h a v Hs IH Hg|s h a v Hs IH Hg];
    intros Hroom.
  - apply wf_create.
  - apply wf_add_node; [|done]. apply IH. unfold has_room in *.
    pose proof (add_node_size s ty nm). lia.
  - apply wf_add_link; [|done]. apply IH. unfold has_room in *.
    pose proof (add_link_size s ty og). lia.
  - apply get_atom_Some in Hg as [_ Hl]. unfold has_room in *. simpl in Hroom.
    rewrite map_size_insert_Some in Hroom by done.
    by eapply wf_store_atom; [apply IH| |..].
  - apply get_atom_Some in Hg as [_ Hl]. unfold has_room in *. simpl in Hroom.
    rewrite map_size_insert_Some in Hroom by done.
    by eapply wf_store_atom; [apply IH| |..].
Qed.

End Invariant.

(** ** The scans, as prefixes of the filtered traversal *)

Lemma pattern_scan_take pty pattern max_results l results :
  pattern_scan pty pattern max_results l results =
  results ++ take (max_results - length results) (filter (type_match pty pattern) l).*1.
Proof.
  revert results. induction l as [|[h a] l IH]; intros results; simpl.
  - by rewrite take_nil, app_nil_r.
  - destruct (Nat.leb_spec max_results (length results)) as [Hle|Hlt].
    { replace (max_results - length results)%nat with 0%nat by lia.
      by rewrite take_0, app_nil_r. }
    rewrite filter_cons. destruct (decide (type_match pty pattern (h, a))) as [Hm|Hm].
    + destruct Hm as [Hty Hne]; simpl in *.
      rewrite bool_decide_eq_true_2 by done.
      destruct (N.eqb_spec h pattern) as [|_]; [done|]. simpl.
      rewrite IH, length_app. simpl.
      destruct (max_results - length results)%nat as [|k] eqn:Hk; [lia|]. simpl.
      replace (max_results - (length results + 1))%nat with k by lia.
      by rewrite <- app_assoc.
    + replace (bool_decide (type a = pty) && negb (h =? pattern)) with false; [apply IH|].
      symmetry. apply not_true_is_false. intros [Hty Hne]%andb_true_iff. apply Hm.
      split; simpl; [by apply bool_decide_eq_true in Hty|].
      apply negb_true_iff in Hne. by apply N.eqb_neq.
Qed.

Lemma implies_from_spec premise h a :
  implies_from premise (h, a) ↔
  type a = RWKV_ATOM_IMPLICATION_LINK ∧ ∃ c, outgoing a = [premise; c].
Proof.
  unfold implies_from. simpl. split.
  - intros (Hty & Hlen & H0). split; [done|].
    destruct (outgoing a) as [|x [|c [|? ?]]]; simplify_eq/=. eauto.
  - intros (Hty & c & ->). done.
Qed.

Lemma inference_scan_take premise max_conclusions l conclusions :
  inference_scan premise max_conclusions l conclusions =
  conclusions ++ take (max_conclusions - length conclusions)
                   (conclusion <$> filter (implies_from premise) l).
Proof.
  revert conclusions. induction l as [|[h a] l IH]; intros conclusions; simpl.
  - by rewrite take_nil, app_nil_r.
  - destruct (Nat.leb_spec max_conclusions (length conclusions)) as [Hle|Hlt].
    { replace (max_conclusions - length conclusions)%nat with 0%nat by lia.
      by rewrite take_0, app_nil_r. }
    rewrite filter_cons. destruct (decide (implies_from premise (h, a))) as [Hm|Hm].
    + destruct Hm as (Hty & Hlen & H0); simpl in *.
      rewrite bool_decide_eq_true_2 by done. rewrite Hlen. simpl.
      rewrite bool_decide_eq_true_2 by done.
      rewrite IH, length_app. simpl.
      destruct (max_conclusions - length conclusions)%nat as [|k] eqn:Hk; [lia|]. simpl.
      replace (max_conclusions - (length conclusions + 1))%nat with k by lia.
      by rewrite <- app_assoc.
    + match goal with |- (if ?b then _ else _) = _ => replace b with false end;
        [apply IH|].
      symmetry. apply not_true_is_false.
      intros [[Hty Hlen]%andb_true_iff H0]%andb_true_iff. apply Hm.
      split_and!; simpl.
      * by apply bool_decide_eq_true in Hty.
      * by apply Nat.eqb_eq in Hlen.
      * by apply bool_decide_eq_true in H0.
Qed.

(** ** Counting, independently of the traversal *)

Lemma map_to_list_filter_perm (P : N * rwkv_atom → Prop) `{!∀ p, Decision (P p)}
    (m : gmap N rwkv_atom) :
  map_to_list (filter P m) ≡ₚ filter P (map_to_list m).
Proof.
  apply NoDup_Permutation.
  - apply NoDup_map_to_list.
  - apply NoDup_filter, NoDup_map_to_list.
  - intros [h a]. rewrite elem_of_map_to_list, map_lookup_filter_Some,
      list_elem_of_filter, elem_of_map_to_list. tauto.
Qed.

Lemma count_fold (f : rwkv_atom → bool) (l : list (N * rwkv_atom)) (c : nat) :
  fold_left (λ count '(_, a), if f a then S count else count) l c =
  (c + length (filter (λ p, f p.2 = true) l))%nat.
Proof.
  revert c. induction l as [|[h a] l IH]; intros c; simpl; [lia|].
  rewrite IH, filter_cons. simpl.
  destruct (f a); simpl; repeat case_decide; simpl; try done; lia.
Qed.

Lemma length_filter_split (f : rwkv_atom → bool) (l : list (N * rwkv_atom)) :
  (length (filter (λ p, f p.2 = true) l) + length (filter (λ p, negb (f p.2) = true) l)
   = length l)%nat.
Proof.
  induction l as [|[h a] l IH]; simpl; [done|].
  rewrite !filter_cons. simpl.
  destruct (f a); simpl; repeat case_decide; simpl; try done; lia.
Qed.

Section Counting.
Context {T : Traversal}.

Lemma length_filter_iteration (P : N * rwkv_atom → Prop) `{!∀ p, Decision (P p)}
    (m : gmap N rwkv_atom) :
  length (filter P (iteration m)) = size (filter P m).
Proof.
  rewrite (iteration_perm m), <- map_to_list_filter_perm. apply length_map_to_list.
Qed.

Lemma node_count_filter s :
  rwkv_atomspace_get_node_count s =
  size (filter (λ p : N * rwkv_atom, is_node_type (type p.2) = true) (atoms s)).
Proof.
  unfold rwkv_atomspace_get_node_count.
  rewrite (count_fold (λ a, is_node_type (type a))). simpl.
  apply (length_filter_iteration (λ p, is_node_type (type p.2) = true)).
Qed.

End Counting.

(** ** Node creation *)

Section Nodes.
Context {T : Traversal}.

Lemma node_count_inserted s ty n :
  wf s → is_node_type ty = true →
  rwkv_atomspace_get_node_count (node_inserted s ty n) =
  S (rwkv_atomspace_get_node_count s).
Proof.
  intros Hwf Hty. rewrite !node_count_filter. simpl.
  rewrite map_filter_insert_True by done.
  apply map_size_insert_None, map_lookup_filter_None_2. left. by apply wf_fresh.
Qed.

(** Right after a node was inserted, the same request finds it. *)
Lemma add_node_again s ty n :
  wf s → is_node_type ty = true →
  name_index s !! n ≫= find_node_of_type (atoms s) ty = None →
  rwkv_atomspace_add_node (node_inserted s ty n) ty (Some n) =
  (next_handle s, node_inserted s ty n).
Proof.
  intros Hwf Hty Hnone. pose proof (wf_fresh _ Hwf) as Hfresh.
  unfold rwkv_atomspace_add_node at 1. rewrite Hty. simpl.
  rewrite lookup_insert_eq. simpl. rewrite find_node_of_type_app.
  rewrite (find_node_of_type_ext (atoms s)).
  - replace (find_node_of_type (atoms s) ty (default [] (name_index s !! n)))
      with (@None N) by (by destruct (name_index s !! n)).
    simpl. rewrite lookup_insert_eq. simpl. by rewrite decide_True.
  - intros h Hin. apply lookup_insert_ne. intros <-.
    destruct (name_index s !! n) as [hs|] eqn:Hi; simpl in Hin;
      [|by apply elem_of_nil in Hin].
    destruct (wf_index_sound _ Hwf _ _ _ Hi Hin) as (a & Hl & _). congruence.
Qed.

(** Two [add_node] calls in a row, on a store that satisfies the invariant. *)
Lemma add_node_twice s ty n :
  wf s → is_node_type ty = true →
  let r1 := rwkv_atomspace_add_node s ty (Some n) in
  let r2 := rwkv_atomspace_add_node r1.2 ty (Some n) in
  r1.1 = r2.1 ∧ r1.1 ≠ 0 ∧ r2.2 = r1.2
  ∧ (∃ a, atoms r1.2 !! r1.1 = Some a ∧ type a = ty ∧ name a = n)
  ∧ (node_stored s ty n → r1.2 = s)
  ∧ (¬ node_stored s ty n → r1.2 = node_inserted s ty n).
Proof.
  intros Hwf Hty. cbv zeta.
  destruct (add_node_cases s ty (Some n)) as [[_ [?|?]]|[(n' & hs & h & [= <-] & _ & Hi & Hf & E)|
    (n' & [= <-] & _ & Hnone & E)]]; [done|congruence| |]; rewrite E; cbn [fst snd].
  - rewrite E. cbn [fst snd].
    apply find_node_of_type_Some in Hf as (Hin & a & Hl & Ha).
    destruct (wf_index_sound _ Hwf _ _ _ Hi Hin) as (a' & Hl' & Hn & _).
    assert (a' = a) as -> by congruence.
    pose proof (wf_keys _ Hwf _ _ Hl). split_and!; [done|lia|done|by eauto|done|].
    intros []. by exists h, a.
  - rewrite add_node_again by done. cbn [fst snd].
    pose proof (wf_next _ Hwf). split_and!; [done|lia|done| | |done].
    + eexists. simpl. by rewrite lookup_insert_eq.
    + intros (h & a & Hl & Ha & Hn). exfalso.
      eapply (wf_no_node s ty n h a); eauto. by rewrite Ha.
Qed.

(** C1 (as amended).  On a reachable store with room, two [add_node] calls
    with the same node type and name return the same valid handle, which
    names a stored node of that type and name; the second call leaves the
    store as the first left it.  The node count after the second call is
    the count before the first call when a node of that type and name was
    stored already, and that count plus one when none was. *)
Theorem add_node_idempotent s ty n :
  reachable s → has_room s → is_node_type ty = true →
  let r1 := rwkv_atomspace_add_node s ty (Some n) in
  let r2 := rwkv_atomspace_add_node r1.2 ty (Some n) in
  r1.1 = r2.1 ∧ r1.1 ≠ RWKV_INVALID_ATOM_HANDLE ∧ r2.2 = r1.2
  ∧ (∃ a, atoms r1.2 !! r1.1 = Some a ∧ type a = ty ∧ name a = n)
  ∧ (node_stored s ty n →
     rwkv_atomspace_get_node_count r2.2 = rwkv_atomspace_get_node_count s)
  ∧ (¬ node_stored s ty n →
     rwkv_atomspace_get_node_count r2.2 = S (rwkv_atomspace_get_node_count s)).
Proof.
  intros Hreach Hroom Hty. pose proof (reachable_wf _ Hreach Hroom) as Hwf.
  destruct (add_node_twice s ty n Hwf Hty) as (Hsame & Hv & H2 & Hat & Hold & Hnew).
  cbv zeta. split_and!; [done..| |].
  - intros Hs. by rewrite H2, (Hold Hs).
  - intros Hs. rewrite H2, (Hnew Hs). by apply node_count_inserted.
Qed.


End Nodes.

(** ** Link creation *)

Section Links.
Context {T : Traversal}.

Lemma outgoing_exist_insert (m : gmap N rwkv_atom) h a og :
  outgoing_exist m og = true → outgoing_exist (<[h := a]> m) og = true.
Proof.
  rewrite !outgoing_exist_spec. intros Hall x Hin.
  rewrite lookup_insert_is_Some. destruct (decide (h = x)); [by left|].
  right. split; [done|]. by apply Hall.
Qed.

(** Right after a link was inserted, the same request finds it. *)
Lemma add_link_again s ty og :
  wf s → is_link_type ty = true → og ≠ [] → outgoing_exist (atoms s) og = true →
  create_link_signature ty og ∉ link_signatures s ∨
    find_link ty og (iteration (atoms s)) = None →
  rwkv_atomspace_add_link (link_inserted s ty og) ty og =
  (next_handle s, link_inserted s ty og).
Proof.
  intros Hwf Hty Hog Hex Hnew. pose proof (wf_fresh _ Hwf) as Hfresh.
  unfold rwkv_atomspace_add_link at 1. rewrite Hty.
  destruct og as [|x og]; [done|]. cbn [length Nat.eqb orb negb].
  cbn [link_inserted atoms link_signatures].
  rewrite outgoing_exist_insert by done. cbn [negb].
  rewrite decide_True by (apply elem_of_union_l; by apply elem_of_singleton).
  destruct (find_link ty (x :: og) (iteration (<[_ := _]> _))) as [h|] eqn:Hf.
  - apply find_link_Some in Hf as (a & Hin & Ha & Ho).
    apply elem_of_iteration, lookup_insert_Some in Hin as [[<- _]|[_ Hl]]; [done|].
    destruct (wf_no_link s ty (x :: og) h a); auto.
  - exfalso. eapply (find_link_None _ _ _ (next_handle s)); [exact Hf| |].
    + apply elem_of_iteration. apply lookup_insert_eq.
    + done.
Qed.

(** Two [add_link] calls in a row, on a store that satisfies the invariant. *)
Lemma add_link_twice s ty og :
  wf s → is_link_type ty = true → og ≠ [] → outgoing_exist (atoms s) og = true →
  let r1 := rwkv_atomspace_add_link s ty og in
  let r2 := rwkv_atomspace_add_link r1.2 ty og in
  r1.1 = r2.1 ∧ r1.1 ≠ 0 ∧ r2.2 = r1.2
  ∧ (∃ a, atoms r1.2 !! r1.1 = Some a ∧ type a = ty ∧ outgoing a = og)
  ∧ ((r1.2 = s ∧ is_Some (atoms s !! r1.1))
     ∨ (r1.2 = link_inserted s ty og ∧ r1.1 = next_handle s)).
Proof.
  intros Hwf Hty Hog Hex. cbv zeta.
  destruct (add_link_cases s ty og) as [[_ [?|[?|?]]]|[(h & _ & _ & _ & Hs & Hf & E)|
    (_ & _ & _ & Hnew & E)]]; [done|congruence|congruence| |]; rewrite E; cbn [fst snd].
  - rewrite E. cbn [fst snd].
    apply find_link_Some in Hf as (a & Hin & Ha & Ho). apply elem_of_iteration in Hin.
    pose proof (wf_keys _ Hwf _ _ Hin). split_and!; [done|lia|done|by eauto|].
    left. by eauto.
  - rewrite add_link_again by done. cbn [fst snd].
    pose proof (wf_next _ Hwf). split_and!; [done|lia|done| |by right].
    eexists. simpl. by rewrite lookup_insert_eq.
Qed.

Lemma wrap64_succ_ne n : n < uint64_modulus → wrap64 (n + 1) ≠ n.
Proof.
  intros Hn. unfold wrap64. rewrite uint64_modulus_eq in *.
  destruct (decide (n + 1 < 18446744073709551616)) as [Hlt|Hge].
  - rewrite N.mod_small by done. lia.
  - replace (n + 1) with 18446744073709551616 by lia. rewrite N.Div0.mod_same. lia.
Qed.

(** C2.  On a reachable store with room, two [add_link] calls with the same
    link type and the same non-empty sequence of stored handles return the
    same valid handle, which names a stored link of that type and sequence;
    and for a sequence [A; B] of two different handles, the request for
    [B; A] that follows returns another handle. *)
Theorem add_link_idempotent s ty og :
  reachable s → has_room s → is_link_type ty = true → og ≠ [] →
  (∀ h, h ∈ og → is_Some (atoms s !! h)) →
  let r1 := rwkv_atomspace_add_link s ty og in
  let r2 := rwkv_atomspace_add_link r1.2 ty og in
  (r1.1 = r2.1 ∧ r1.1 ≠ RWKV_INVALID_ATOM_HANDLE ∧ r2.2 = r1.2
   ∧ ∃ a, atoms r1.2 !! r1.1 = Some a ∧ type a = ty ∧ outgoing a = og)
  ∧ (∀ A B, og = [A; B] → A ≠ B →
     let r3 := rwkv_atomspace_add_link r1.2 ty [B; A] in
     r3.1 ≠ r1.1 ∧ r3.1 ≠ r2.1
     ∧ ∃ a, atoms r3.2 !! r3.1 = Some a ∧ type a = ty ∧ outgoing a = [B; A]).
Proof.
  intros Hreach Hroom Hty Hog Hall. pose proof (reachable_wf _ Hreach Hroom) as Hwf.
  apply outgoing_exist_spec in Hall.
  destruct (add_link_twice s ty og Hwf Hty Hog Hall) as (Hsame & Hv & H2 & Hat & Hst).
  cbv zeta. split; [done|]. intros A B -> Hne. rewrite <- Hsame.
  set (r1 := rwkv_atomspace_add_link s ty [A; B]) in *.
  destruct Hat as (a1 & Hl1 & Ht1 & Ho1).
  assert (Hex : outgoing_exist (atoms r1.2) [B; A] = true).
  { pose proof (proj1 (outgoing_exist_spec _ _) Hall) as Hall'.
    apply outgoing_exist_spec. intros x Hx.
    assert (is_Some (atoms s !! x)) as Hsx.
    { apply Hall'. apply elem_of_cons in Hx as [->|Hx]; [right; left|].
      apply elem_of_cons in Hx as [->|Hx]; [left|]. by apply elem_of_nil in Hx. }
    destruct Hst as [[-> _]|[-> _]]; [done|]. simpl.
    rewrite lookup_insert_is_Some. destruct (decide (next_handle s = x)); auto. }
  destruct (add_link_cases r1.2 ty [B; A]) as [[_ [?|[?|?]]]|[(h & _ & _ & _ & Hs & Hf & E)|
    (_ & _ & _ & Hnew & E)]]; [done|congruence|congruence| |]; rewrite E; cbn [fst snd].
  - apply find_link_Some in Hf as (a & Hin & Ha & Ho). apply elem_of_iteration in Hin.
    assert (h ≠ r1.1) by (intros ->; congruence). eauto 10.
  - assert (next_handle r1.2 ≠ r1.1).
    { destruct Hst as [[E2 [a Ha]]|[E2 E1]]; rewrite E2.
      - apply (wf_keys _ Hwf) in Ha. lia.
      - rewrite E1. simpl. apply wrap64_succ_ne, (wf_room _ Hwf). }
    split_and!; [done..|]. eexists. simpl. by rewrite lookup_insert_eq.
Qed.

(** C3.  When some handle of the outgoing sequence is not stored,
    [add_link] returns the invalid handle and the store is the one it was;
    its size in particular. *)
Theorem add_link_rejects_missing s ty og h :
  h ∈ og → atoms s !! h = None →
  rwkv_atomspace_add_link s ty og = (RWKV_INVALID_ATOM_HANDLE, s)
  ∧ rwkv_atomspace_get_size (rwkv_atomspace_add_link s ty og).2 =
    rwkv_atomspace_get_size s.
Proof.
  intros Hin Hnone.
  assert (Hex : outgoing_exist (atoms s) og = false).
  { apply not_true_is_false. rewrite outgoing_exist_spec. intros Hall.
    destruct (Hall h Hin) as [a Ha]. congruence. }
  destruct (add_link_cases s ty og) as [[E _]|[(? & _ & _ & ? & _)|(_ & _ & ? & _)]];
    [|congruence..].
  by rewrite E.
Qed.

End Links.

(** ** Handles *)

Section Handles.
Context {T : Traversal}.

(** C9.  In a reachable store with room every stored atom carries the
    handle it is stored under, which is not the invalid handle, so that two
    stored atoms never share a handle.  A call of [add_node] or [add_link]
    that leaves the store as it was returns the invalid handle or a handle
    stored already; a call for a node, respectively a link of stored
    handles, that is not stored yet changes the store; and every call that
    changes the store returns a valid handle that was not stored before and
    lies above every handle stored before, stores the new atom under it
    and leaves the atoms stored before under their handles. *)
Theorem handles_unique_monotonic s :
  reachable s → has_room s →
  (∀ h a, atoms s !! h = Some a → handle a = h ∧ h ≠ RWKV_INVALID_ATOM_HANDLE)
  ∧ (∀ h1 a1 h2 a2, atoms s !! h1 = Some a1 → atoms s !! h2 = Some a2 →
       h1 ≠ h2 → handle a1 ≠ handle a2)
  ∧ (∀ ty nm,
       let r := rwkv_atomspace_add_node s ty nm in
       (r.2 = s → r.1 = RWKV_INVALID_ATOM_HANDLE ∨ is_Some (atoms s !! r.1))
       ∧ (∀ n, is_node_type ty = true → nm = Some n → ¬ node_stored s ty n → r.2 ≠ s)
       ∧ (r.2 ≠ s → issued_anew s r))
  ∧ (∀ ty og,
       let r := rwkv_atomspace_add_link s ty og in
       (r.2 = s → r.1 = RWKV_INVALID_ATOM_HANDLE ∨ is_Some (atoms s !! r.1))
       ∧ (is_link_type ty = true → og ≠ [] →
          (∀ x, x ∈ og → is_Some (atoms s !! x)) → ¬ link_stored s ty og → r.2 ≠ s)
       ∧ (r.2 ≠ s → issued_anew s r)).
Proof.
  intros Hreach Hroom. pose proof (reachable_wf _ Hreach Hroom) as Hwf.
  pose proof (wf_next _ Hwf) as Hnext.
  assert (Hnew : ∀ s', next_handle s' = wrap64 (next_handle s + 1) → s' ≠ s).
  { intros s' Hn E. rewrite E in Hn.
    by apply (wrap64_succ_ne (next_handle s) (wf_room _ Hwf)). }
  assert (Hiss : ∀ s' a, atoms s' = <[next_handle s := a]> (atoms s) →
                         handle a = next_handle s → issued_anew s (next_handle s, s')).
  { intros s' a Ha Hh.
    unfold issued_anew, RWKV_INVALID_ATOM_HANDLE, rwkv_atomspace_get_size. cbn [fst snd].
    split_and!.
    - lia.
    - by apply wf_fresh.
    - done.
    - intros h b Hl. pose proof (wf_keys _ Hwf _ _ Hl). split; [lia|].
      rewrite Ha, lookup_insert_ne; [done|lia].
    - exists a. rewrite Ha. by rewrite lookup_insert_eq. }
  unfold RWKV_INVALID_ATOM_HANDLE. split_and!.
  - intros h a Hl. pose proof (wf_keys _ Hwf _ _ Hl).
    split; [by apply (wf_handle _ Hwf)|lia].
  - intros h1 a1 h2 a2 Hl1 Hl2 Hne.
    by rewrite (wf_handle _ Hwf _ _ Hl1), (wf_handle _ Hwf _ _ Hl2).
  - intros ty nm. cbv zeta.
    destruct (add_node_cases s ty nm) as [[E Hg]|[(n & hs & h & Hnm & Hty & Hi & Hf & E)|
      (n & _ & _ & _ & E)]]; rewrite E; cbn [fst snd].
    + split_and!; [by left | | done].
      intros n Hty ->. destruct Hg; congruence.
    + apply find_node_of_type_Some in Hf as (Hin & a & Hl & Ha).
      split_and!; [by right; exists a | | done].
      intros n' Hty' Hnm' Hno. destruct Hno. exists h, a. split_and!; [done..|].
      destruct (wf_index_sound _ Hwf _ _ _ Hi Hin) as (a' & Hl' & Hn' & _).
      congruence.
    + assert (node_inserted s ty n ≠ s) as Hne by (by apply Hnew).
      split_and!; [done | done |]. intros _. by eapply Hiss.
  - intros ty og. cbv zeta.
    destruct (add_link_cases s ty og) as [[E Hg]|[(h & _ & _ & _ & _ & Hf & E)|
      (_ & _ & _ & _ & E)]]; rewrite E; cbn [fst snd].
    + split_and!; [by left | | done].
      intros Hty Hog Hall%outgoing_exist_spec. destruct Hg as [?|[?|?]]; congruence.
    + apply find_link_Some in Hf as (a & Hin%elem_of_iteration & Hta & Hoa).
      split_and!; [by right; exists a | | done].
      intros _ _ _ Hno. destruct Hno. by exists h, a.
    + assert (link_inserted s ty og ≠ s) as Hne by (by apply Hnew).
      split_and!; [done | done |]. intros _. by eapply Hiss.
Qed.

(** ** Statistics *)

(** C10.  The size of a store is its node count plus its link count, a
    type being a link type exactly when it is not a node type. *)
Theorem size_decomposition s :
  rwkv_atomspace_get_size s =
  (rwkv_atomspace_get_node_count s + rwkv_atomspace_get_link_count s)%nat
  ∧ ∀ ty, is_link_type ty = negb (is_node_type ty).
Proof.
  split; [|done].
  unfold rwkv_atomspace_get_size, rwkv_atomspace_get_node_count,
    rwkv_atomspace_get_link_count, is_link_type.
  rewrite (count_fold (λ a, is_node_type (type a))).
  rewrite (count_fold (λ a, negb (is_node_type (type a)))). simpl.
  rewrite (length_filter_split (λ a, is_node_type (type a))).
  apply eq_sym, length_iteration.
Qed.

End Handles.

(** ** Pattern matching and forward inference *)

Lemma NoDup_all_equal {A} (l : list A) (y : A) :
  NoDup l → y ∈ l → (∀ x, x ∈ l → x = y) → l = [y].
Proof.
  intros Hnd Hin Hall. destruct l as [|x l]; [by apply elem_of_nil in Hin|].
  rewrite (Hall x) by left. f_equal.
  destruct l as [|x' l]; [done|]. apply NoDup_cons in Hnd as [Hx _].
  destruct Hx. rewrite (Hall x), (Hall x'); [left|right; left|left].
Qed.

Section Scans.
Context {T : Traversal}.

Lemma pattern_match_eq s pattern pattern_atom max_results :
  pattern ≠ 0 → atoms s !! pattern = Some pattern_atom →
  rwkv_atomspace_pattern_match s pattern max_results =
  take max_results (filter (type_match (type pattern_atom) pattern) (iteration (atoms s))).*1.
Proof.
  intros Hne Hl. unfold rwkv_atomspace_pattern_match, RWKV_INVALID_ATOM_HANDLE.
  destruct (N.eqb_spec pattern 0); [done|]. rewrite Hl, pattern_scan_take. simpl.
  by rewrite Nat.sub_0_r.
Qed.

Lemma forward_inference_eq s premise max_conclusions :
  premise ≠ 0 →
  rwkv_atomspace_forward_inference s premise max_conclusions =
  Some (take max_conclusions
          (conclusion <$> filter (implies_from premise) (iteration (atoms s)))).
Proof.
  intros Hne. unfold rwkv_atomspace_forward_inference, RWKV_INVALID_ATOM_HANDLE.
  destruct (N.eqb_spec premise 0); [done|]. rewrite inference_scan_take. simpl.
  by rewrite Nat.sub_0_r.
Qed.

Lemma elem_of_conclusions premise m c :
  c ∈ conclusion <$> filter (implies_from premise) (iteration m) ↔
  ∃ h a, m !! h = Some a ∧ type a = RWKV_ATOM_IMPLICATION_LINK
         ∧ outgoing a = [premise; c].
Proof.
  rewrite list_elem_of_fmap. split.
  - intros ([h a] & -> & [Hm Hin]%list_elem_of_filter).
    apply elem_of_iteration in Hin. apply implies_from_spec in Hm as (Hty & c & Ho).
    exists h, a. unfold conclusion. simpl. by rewrite Ho.
  - intros (h & a & Hl & Hty & Ho). exists (h, a). split.
    + unfold conclusion. simpl. by rewrite Ho.
    + apply list_elem_of_filter. split; [|by apply elem_of_iteration].
      apply implies_from_spec. eauto.
Qed.

(** C5.  [pattern_match] reports nothing for a handle under which no atom
    is stored.  For a valid handle of a stored atom it reports, without
    repetition, handles other than the pattern's of stored atoms of the
    pattern's type; it reports as many as there are, up to [max_results],
    and all of them when [max_results] allows.  Names, outgoing sequences,
    truth and attention values play no part.  In a reachable store with
    room every handle of a stored atom is valid. *)
Theorem pattern_match_by_type s pattern max_results :
  (atoms s !! pattern = None → rwkv_atomspace_pattern_match s pattern max_results = [])
  ∧ (reachable s → has_room s → is_Some (atoms s !! pattern) →
     pattern ≠ RWKV_INVALID_ATOM_HANDLE)
  ∧ ∀ pattern_atom,
      pattern ≠ RWKV_INVALID_ATOM_HANDLE → atoms s !! pattern = Some pattern_atom →
      let results := rwkv_atomspace_pattern_match s pattern max_results in
      let matches := filter (type_match (type pattern_atom) pattern) (atoms s) in
      NoDup results
      ∧ (∀ h, h ∈ results →
           h ≠ pattern ∧ ∃ a, atoms s !! h = Some a ∧ type a = type pattern_atom)
      ∧ length results = Nat.min max_results (size matches)
      ∧ ((size matches ≤ max_results)%nat →
         ∀ h a, atoms s !! h = Some a → type a = type pattern_atom → h ≠ pattern →
           h ∈ results).
Proof.
  split.
  { intros Hl. unfold rwkv_atomspace_pattern_match. rewrite Hl.
    by destruct (pattern =? RWKV_INVALID_ATOM_HANDLE). }
  split.
  { intros Hreach Hroom [a Ha]. unfold RWKV_INVALID_ATOM_HANDLE.
    pose proof (wf_keys _ (reachable_wf _ Hreach Hroom) _ _ Ha). lia. }
  intros pattern_atom Hne Hl. cbv zeta. rewrite (pattern_match_eq _ _ _ _ Hne Hl).
  set (P := type_match (type pattern_atom) pattern). split_and!.
  - eapply sublist_NoDup; [|apply sublist_take].
    eapply sublist_NoDup; [apply NoDup_fst_iteration|].
    apply fmap_sublist, sublist_filter; apply _.
  - intros h Hin%subseteq_take.
    apply list_elem_of_fmap in Hin as ([h' a] & -> & [[Hty Hp] Hin]%list_elem_of_filter).
    apply elem_of_iteration in Hin. simpl in *. eauto.
  - by rewrite length_take, length_fmap, (length_filter_iteration P).
  - intros Hle h a Hh Hty Hp. rewrite take_ge.
    + apply list_elem_of_fmap. exists (h, a). split; [done|].
      apply list_elem_of_filter. split; [done | by apply elem_of_iteration].
    + by rewrite length_fmap, (length_filter_iteration P).
Qed.

(** C4.  For a valid premise handle [forward_inference] succeeds.  Each of
    its conclusions is the second element of a stored implication link of
    two elements whose first is the premise; it draws as many conclusions
    as there are such links, up to [max_conclusions], and all of them when
    [max_conclusions] allows.  One hop only: in a reachable store with room
    whose implication links are one from the premise to [B] and at most
    one from [B] to [C], the conclusions are [B] alone. *)
Theorem forward_inference_one_hop s premise max_conclusions :
  premise ≠ RWKV_INVALID_ATOM_HANDLE →
  ∃ conclusions,
    rwkv_atomspace_forward_inference s premise max_conclusions = Some conclusions
    ∧ (∀ c, c ∈ conclusions → link_stored s RWKV_ATOM_IMPLICATION_LINK [premise; c])
    ∧ length conclusions =
      Nat.min max_conclusions (size (filter (implies_from premise) (atoms s)))
    ∧ ((size (filter (implies_from premise) (atoms s)) ≤ max_conclusions)%nat →
       ∀ c, link_stored s RWKV_ATOM_IMPLICATION_LINK [premise; c] → c ∈ conclusions)
    ∧ (∀ B C, reachable s → has_room s → premise ≠ B → (1 ≤ max_conclusions)%nat →
         link_stored s RWKV_ATOM_IMPLICATION_LINK [premise; B] →
         (∀ og, link_stored s RWKV_ATOM_IMPLICATION_LINK og →
            og = [premise; B] ∨ og = [B; C]) →
         conclusions = [B]).
Proof.
  intros Hne. eexists. split; [by apply forward_inference_eq|].
  set (l := filter (implies_from premise) (iteration (atoms s))). split_and!.
  - intros c Hin%subseteq_take. by apply elem_of_conclusions in Hin.
  - unfold l.
    by rewrite length_take, length_fmap, (length_filter_iteration (implies_from premise)).
  - intros Hle c Hc. unfold l. rewrite take_ge.
    + by apply elem_of_conclusions.
    + by rewrite length_fmap, (length_filter_iteration (implies_from premise)).
  - intros B C Hreach Hroom HB Hmax (h0 & a0 & Hl0 & Hty0 & Ho0) Honly.
    pose proof (reachable_wf _ Hreach Hroom) as Hwf.
    assert (l = [(h0, a0)]) as ->.
    { apply NoDup_all_equal.
      - apply NoDup_filter, NoDup_iteration.
      - apply list_elem_of_filter. split; [|by apply elem_of_iteration].
        apply implies_from_spec. eauto.
      - intros [h a] [Hm Hin]%list_elem_of_filter. apply elem_of_iteration in Hin.
        apply implies_from_spec in Hm as (Hty & c & Ho).
        assert (outgoing a = [premise; B]) as Ho'.
        { destruct (Honly (outgoing a)) as [E|E]; [by exists h, a|done|congruence]. }
        assert (h = h0) as ->.
        { eapply (wf_link_unique _ Hwf); eauto; [by rewrite Hty|congruence..]. }
        congruence. }
    simpl. unfold conclusion. simpl. rewrite Ho0. simpl.
    destruct max_conclusions; [lia|]. simpl. by rewrite take_nil.
Qed.

End Scans.

(** ** Truth and attention values *)

Lemma SFcompare_antisym x y : SFcompare y x = CompOpp <$> SFcompare x y.
Proof.
  destruct x as [sx|sx| |sx mx ex], y as [sy|sy| |sy my ey]; simpl;
    try done; try (by destruct sx); try (by destruct sy); try (by destruct sx, sy).
  rewrite (Z.compare_antisym ex ey).
  change (Pos.compare_cont Eq my mx) with (Pos.compare my mx).
  change (Pos.compare_cont Eq mx my) with (Pos.compare mx my).
  rewrite (Pos.compare_antisym mx my).
  destruct sx, sy; simpl; try done;
    destruct (Z.compare ex ey); simpl; try done;
    by destruct (Pos.compare mx my).
Qed.

Lemma SFcompare_refl x : x ≠ S754_nan → SFcompare x x = Some Eq.
Proof.
  destruct x as [sx|sx| |sx mx ex]; simpl; try done; try (by destruct sx).
  intros _. rewrite Z.compare_refl.
  change (Pos.compare_cont Eq mx mx) with (Pos.compare mx mx).
  rewrite Pos.compare_refl. by destruct sx.
Qed.

Lemma F32_lt_le x y : F32.lt x y = true → F32.le x y = true.
Proof. unfold F32.lt, F32.le, SFltb, SFleb. by destruct (SFcompare x y) as [[]|]. Qed.

Lemma F32_lt_asym x y : F32.lt x y = true → F32.lt y x = false.
Proof.
  unfold F32.lt, SFltb. rewrite (SFcompare_antisym x y).
  by destruct (SFcompare x y) as [[]|].
Qed.

Lemma F32_le_not_lt x y : F32.le x y = true → F32.lt y x = false.
Proof.
  unfold F32.lt, F32.le, SFltb, SFleb. rewrite (SFcompare_antisym x y).
  by destruct (SFcompare x y) as [[]|].
Qed.

Lemma clamp01_cases x :
  (F32.lt x F32.one = true ∧ F32.lt F32.zero x = true ∧ clamp01 x = x)
  ∨ (F32.lt x F32.one = true ∧ F32.lt F32.zero x = false ∧ clamp01 x = F32.zero)
  ∨ (F32.lt x F32.one = false ∧ clamp01 x = F32.one).
Proof.
  unfold clamp01, F32.max, F32.min. destruct (F32.lt x F32.one) eqn:H1.
  - destruct (F32.lt F32.zero x) eqn:H0; auto.
  - right. right. done.
Qed.

Lemma clamp01_clamped x : clamped x (clamp01 x).
Proof.
  unfold clamped, in_unit.
  destruct (clamp01_cases x) as [(H1 & H0 & ->)|[(H1 & H0 & ->)|(H1 & ->)]].
  - split_and!.
    + by rewrite (F32_lt_le _ _ H0), (F32_lt_le _ _ H1).
    + intros _. unfold F32.eqb, SFeqb. rewrite SFcompare_refl; [done|].
      intros ->. done.
    + intros H. by rewrite (F32_lt_asym _ _ H1) in H.
    + intros H. by rewrite (F32_lt_asym _ _ H0) in H.
  - split_and!.
    + done.
    + intros [Hz _]%andb_true_iff. revert Hz H0.
      unfold F32.eqb, F32.le, F32.lt, SFeqb, SFleb, SFltb.
      by destruct (SFcompare F32.zero x) as [[]|].
    + intros H. by rewrite (F32_lt_asym _ _ H1) in H.
    + done.
  - split_and!.
    + done.
    + intros [_ Ho]%andb_true_iff. revert Ho H1.
      unfold F32.eqb, F32.le, F32.lt, SFeqb, SFleb, SFltb.
      rewrite (SFcompare_antisym x F32.one).
      by destruct (SFcompare x F32.one) as [[]|].
    + done.
    + intros H. exfalso. revert H H1. unfold F32.lt, SFltb.
      by destruct x as [[]|[]| |[] m e].
Qed.

(** C6.  [set_truth_value] stores the strength and the confidence clamped
    into [0, 1] and nothing else of the atom changes; strength 1.5 and
    confidence -0.2 are stored as (1.0, 0.0).  [set_attention_value]
    stores the attention value as it is given. *)
Theorem set_truth_value_clamps a v w :
  let a' := rwkv_atom_set_truth_value a v in
  clamped (strength v) (strength (rwkv_atom_get_truth_value a'))
  ∧ clamped (confidence v) (confidence (rwkv_atom_get_truth_value a'))
  ∧ (handle a', type a', name a', outgoing a', av a')
    = (handle a, type a, name a, outgoing a, av a)
  ∧ rwkv_atom_get_truth_value
      (rwkv_atom_set_truth_value a (mk_tv F32.one_and_half (F32.opp F32.fifth)))
    = mk_tv F32.one F32.zero
  ∧ rwkv_atom_get_attention_value (rwkv_atom_set_attention_value a w) = w
  ∧ rwkv_atom_get_truth_value (rwkv_atom_set_attention_value a w)
    = rwkv_atom_get_truth_value a.
Proof.
  simpl. split_and!; try done; apply clamp01_clamped.
Qed.

(** ** The state bridge *)

Lemma encode_entry_insignificant i x s : insignificant x → encode_entry i x s = s.
Proof. intros H. unfold encode_entry. by rewrite (F32_le_not_lt _ _ H). Qed.

Lemma encode_loop_insignificant i state s :
  Forall insignificant state → encode_loop i state s = s.
Proof.
  intros Hall. revert i. induction Hall as [|x state Hx _ IH]; intros i; simpl; [done|].
  by rewrite encode_entry_insignificant, IH.
Qed.

Lemma take_min_length {A} (l : list A) n : take (Nat.min (length l) n) l = take n l.
Proof.
  destruct (Nat.le_ge_cases (length l) n) as [Hle|Hge].
  - rewrite Nat.min_l by done. by rewrite !take_ge.
  - by rewrite Nat.min_r.
Qed.

Lemma insignificant_zero : insignificant F32.zero.
Proof. reflexivity. Qed.

Lemma encode_spike state_len :
  (3 < state_len)%nat →
  rwkv_context_to_atoms rwkv_atomspace_create (spike state_len) = spike_store.
Proof.
  intros Hlen. unfold rwkv_context_to_atoms. rewrite take_min_length.
  replace state_len with (4 + (state_len - 4))%nat by lia.
  generalize (state_len - 4)%nat as k. intros k. unfold spike. simpl.
  rewrite encode_loop_insignificant.
  - vm_compute. reflexivity.
  - apply Forall_take, Forall_replicate, insignificant_zero.
Qed.

Section Round_trip.
Context {T : Traversal}.

Lemma decode_spike state_len :
  (3 < state_len)%nat →
  rwkv_atoms_to_context spike_store state_len =
  <[3%nat := F32.half]> (replicate state_len F32.zero).
Proof.
  intros Hlen. unfold rwkv_atoms_to_context. simpl. rewrite iteration_singleton. simpl.
  unfold decode_entry.
  change (bool_decide (type spike_atom = RWKV_ATOM_CONCEPT_NODE)
          && String.prefix "state_" (name spike_atom)) with true.
  change (stoul _) with (Some 3). cbv iota beta.
  rewrite length_replicate.
  destruct (N.ltb_spec 3 (N.of_nat state_len)) as [_|]; [|lia].
  done.
Qed.

(** C8.  Encoding the state vector with 0.5 at index 3 and zeros elsewhere
    into a new store yields a concept node named "state_3" of strength 0.5
    and confidence 0.8, and decoding that store into a buffer of the same
    length yields 0.5 at index 3.  Encoding a vector whose entries all have
    magnitude at most 0.1 into a new store yields no atom at all, and
    decoding then yields the zero vector of the same length. *)
Theorem bridge_round_trip state_len state :
  ((3 < state_len)%nat →
   let s := rwkv_context_to_atoms rwkv_atomspace_create (spike state_len) in
   (∃ h a, rwkv_atomspace_get_atom s h = Some a
           ∧ rwkv_atom_get_type a = RWKV_ATOM_CONCEPT_NODE
           ∧ rwkv_atom_get_name a = Some "state_3"
           ∧ rwkv_atom_get_truth_value a = mk_tv F32.half F32.four_fifths)
   ∧ length (rwkv_atoms_to_context s state_len) = state_len
   ∧ rwkv_atoms_to_context s state_len !! 3%nat = Some F32.half)
  ∧ (Forall insignificant state →
     let s := rwkv_context_to_atoms rwkv_atomspace_create state in
     rwkv_atomspace_get_size s = 0%nat
     ∧ rwkv_atomspace_get_node_count s = 0%nat
     ∧ rwkv_atoms_to_context s (length state) = replicate (length state) F32.zero).
Proof.
  split.
  - intros Hlen. cbv zeta. rewrite encode_spike, decode_spike by done. split_and!.
    + by exists 1, spike_atom.
    + by rewrite length_insert, length_replicate.
    + apply list_lookup_insert_eq. by rewrite length_replicate.
  - intros Hall. cbv zeta. unfold rwkv_context_to_atoms.
    rewrite encode_loop_insignificant by by apply Forall_take.
    unfold rwkv_atomspace_get_size, rwkv_atomspace_get_node_count, rwkv_atoms_to_context.
    simpl. rewrite iteration_empty. by rewrite map_size_empty.
Qed.

End Round_trip.

(** ** The theorems at sample stores *)

Lemma reachable_two_nodes : reachable two_nodes.
Proof. unfold two_nodes. do 2 apply reachable_add_node. apply reachable_create. Qed.

Lemma reachable_three_nodes : reachable three_nodes.
Proof. unfold three_nodes. apply reachable_add_node, reachable_two_nodes. Qed.

Lemma reachable_chain : reachable chain.
Proof. unfold chain. do 2 apply reachable_add_link. apply reachable_three_nodes. Qed.

Lemma has_room_two_nodes : has_room two_nodes.
Proof. vm_compute. reflexivity. Qed.

Lemma add_node_idempotent_witness :
  reachable two_nodes ∧ has_room two_nodes
  ∧ is_node_type RWKV_ATOM_CONCEPT_NODE = true
  ∧ (rwkv_atomspace_add_node two_nodes RWKV_ATOM_CONCEPT_NODE (Some "Dog")).1
    = (rwkv_atomspace_add_node
         (rwkv_atomspace_add_node two_nodes RWKV_ATOM_CONCEPT_NODE (Some "Dog")).2
         RWKV_ATOM_CONCEPT_NODE (Some "Dog")).1.
Proof.
  split_and!; [apply reachable_two_nodes | apply has_room_two_nodes | reflexivity |].
  apply (add_node_idempotent two_nodes RWKV_ATOM_CONCEPT_NODE "Dog");
    [apply reachable_two_nodes | apply has_room_two_nodes | reflexivity].
Defined.

(** On a store that holds the concept "Cat" already, two more requests for
    it leave the node count as it was: it does not grow by one. *)
Lemma add_node_count_counterexample :
  reachable two_nodes ∧ has_room two_nodes
  ∧ is_node_type RWKV_ATOM_CONCEPT_NODE = true
  ∧ rwkv_atomspace_get_node_count
      (rwkv_atomspace_add_node
         (rwkv_atomspace_add_node two_nodes RWKV_ATOM_CONCEPT_NODE (Some "Cat")).2
         RWKV_ATOM_CONCEPT_NODE (Some "Cat")).2
    ≠ S (rwkv_atomspace_get_node_count two_nodes).
Proof.
  split_and!; [apply reachable_two_nodes | apply has_room_two_nodes | reflexivity |].
  vm_compute. discriminate.
Qed.

Lemma add_link_idempotent_witness :
  reachable two_nodes ∧ has_room two_nodes
  ∧ is_link_type RWKV_ATOM_INHERITANCE_LINK = true ∧ [1; 2] ≠ []
  ∧ (∀ h, h ∈ [1; 2] → is_Some (atoms two_nodes !! h))
  ∧ (rwkv_atomspace_add_link two_nodes RWKV_ATOM_INHERITANCE_LINK [1; 2]).1
    = (rwkv_atomspace_add_link
         (rwkv_atomspace_add_link two_nodes RWKV_ATOM_INHERITANCE_LINK [1; 2]).2
         RWKV_ATOM_INHERITANCE_LINK [1; 2]).1
  ∧ (rwkv_atomspace_add_link
       (rwkv_atomspace_add_link two_nodes RWKV_ATOM_INHERITANCE_LINK [1; 2]).2
       RWKV_ATOM_INHERITANCE_LINK [2; 1]).1
    ≠ (rwkv_atomspace_add_link two_nodes RWKV_ATOM_INHERITANCE_LINK [1; 2]).1.
Proof.
  assert (Hall : ∀ h, h ∈ [1; 2] → is_Some (atoms two_nodes !! h)).
  { intros h [->|[->|[]%elem_of_nil]%elem_of_cons]%elem_of_cons;
      vm_compute; eexists; reflexivity. }
  split_and!; [apply reachable_two_nodes | apply has_room_two_nodes | reflexivity
    | discriminate | exact Hall | |].
  - apply (add_link_idempotent two_nodes RWKV_ATOM_INHERITANCE_LINK [1; 2]);
      [apply reachable_two_nodes | apply has_room_two_nodes | reflexivity
      | discriminate | exact Hall].
  - apply (add_link_idempotent two_nodes RWKV_ATOM_INHERITANCE_LINK [1; 2]
             reachable_two_nodes has_room_two_nodes eq_refl);
      [discriminate | exact Hall | reflexivity | discriminate].
Defined.

Lemma add_link_rejects_missing_witness :
  7 ∈ [1; 7] ∧ atoms two_nodes !! 7 = None
  ∧ rwkv_atomspace_add_link two_nodes RWKV_ATOM_LIST_LINK [1; 7]
    = (RWKV_INVALID_ATOM_HANDLE, two_nodes).
Proof.
  assert (Hin : 7 ∈ [1; 7]) by (right; left).
  split_and!; [exact Hin | reflexivity |].
  apply (add_link_rejects_missing two_nodes RWKV_ATOM_LIST_LINK [1; 7] 7 Hin eq_refl).
Defined.

(** The implication links of [chain]: 1 → 2 and 2 → 3. *)
Lemma chain_implications og :
  link_stored chain RWKV_ATOM_IMPLICATION_LINK og → og = [1; 2] ∨ og = [2; 3].
Proof.
  intros (h & a & Hl & Hty & <-). apply elem_of_map_to_list in Hl.
  vm_compute in Hl.
  repeat (apply elem_of_cons in Hl as [Hl|Hl];
          [injection Hl as -> ->; simpl in Hty; try discriminate; auto|]).
  by apply elem_of_nil in Hl.
Qed.

Lemma chain_first_implication : link_stored chain RWKV_ATOM_IMPLICATION_LINK [1; 2].
Proof. exists 4. eexists. split; [vm_compute; reflexivity | done]. Qed.

Lemma has_room_chain : has_room chain.
Proof. vm_compute. reflexivity. Qed.

Lemma forward_inference_one_hop_witness :
  1 ≠ RWKV_INVALID_ATOM_HANDLE
  ∧ rwkv_atomspace_forward_inference chain 1 10 = Some [2].
Proof.
  assert (Hne : 1 ≠ RWKV_INVALID_ATOM_HANDLE) by discriminate.
  split; [exact Hne|].
  destruct (forward_inference_one_hop chain 1 10 Hne) as (cs & Heq & _ & _ & _ & Hone).
  rewrite Heq. f_equal.
  apply (Hone 2 3 reachable_chain has_room_chain); [discriminate | lia | |].
  - exact chain_first_implication.
  - exact chain_implications.
Defined.

Lemma pattern_match_by_type_witness :
  1 ≠ RWKV_INVALID_ATOM_HANDLE
  ∧ atoms menagerie !! 1
    = Some (with_name (new_atom 1 RWKV_ATOM_CONCEPT_NODE) "Cat")
  ∧ NoDup (rwkv_atomspace_pattern_match menagerie 1 10)
  ∧ length (rwkv_atomspace_pattern_match menagerie 1 10) = 2%nat.
Proof.
  assert (Hne : 1 ≠ RWKV_INVALID_ATOM_HANDLE) by discriminate.
  split_and!; [exact Hne | reflexivity | |].
  - apply (proj2 (proj2 (pattern_match_by_type menagerie 1 10)) _ Hne eq_refl).
  - exact (proj1 (proj2 (proj2
      (proj2 (proj2 (pattern_match_by_type menagerie 1 10)) _ Hne eq_refl)))).
Defined.



Lemma bridge_round_trip_witness :
  (3 < 6)%nat ∧ Forall insignificant [F32.zero; F32.tenth; F32.opp F32.tenth]
  ∧ rwkv_atoms_to_context (rwkv_context_to_atoms rwkv_atomspace_create (spike 6)) 6
      !! 3%nat = Some F32.half
  ∧ rwkv_atoms_to_context
      (rwkv_context_to_atoms rwkv_atomspace_create
         [F32.zero; F32.tenth; F32.opp F32.tenth]) 3
    = [F32.zero; F32.zero; F32.zero].
Proof.
  assert (Hlen : (3 < 6)%nat) by lia.
  assert (Hall : Forall insignificant [F32.zero; F32.tenth; F32.opp F32.tenth])
    by (repeat constructor).
  split_and!; [exact Hlen | exact Hall | |].
  - apply (proj1 (bridge_round_trip 6 []) Hlen).
  - apply (proj2 (bridge_round_trip 0 _) Hall).
Defined.

(** No concept node named "Dog" is stored in [two_nodes]. *)
Lemma two_nodes_no_dog : ¬ node_stored two_nodes RWKV_ATOM_CONCEPT_NODE "Dog".
Proof.
  intros (h & a & Hl & Hty & Hn). apply elem_of_map_to_list in Hl.
  vm_compute in Hl.
  repeat (apply elem_of_cons in Hl as [Hl|Hl];
          [injection Hl as -> ->; simpl in Hn; discriminate|]).
  by apply elem_of_nil in Hl.
Qed.

Lemma handles_unique_monotonic_witness :
  reachable two_nodes ∧ has_room two_nodes
  ∧ (∀ h a, atoms two_nodes !! h = Some a → handle a = h ∧ h ≠ RWKV_INVALID_ATOM_HANDLE)
  ∧ ¬ node_stored two_nodes RWKV_ATOM_CONCEPT_NODE "Dog"
  ∧ issued_anew two_nodes
      (rwkv_atomspace_add_node two_nodes RWKV_ATOM_CONCEPT_NODE (Some "Dog")).
Proof.
  destruct (handles_unique_monotonic two_nodes reachable_two_nodes has_room_two_nodes)
    as (Hkeys & _ & Hnode & _).
  destruct (Hnode RWKV_ATOM_CONCEPT_NODE (Some "Dog")) as (_ & Hchanged & Hnew).
  split_and!; [apply reachable_two_nodes | apply has_room_two_nodes | exact Hkeys
    | exact two_nodes_no_dog |].
  exact (Hnew (Hchanged "Dog" eq_refl eq_refl two_nodes_no_dog)).
Defined.

(** * Further properties *)

(** ** What every reachable store satisfies, with room or without *)

Lemma clamp01_idempotent x : clamp01 (clamp01 x) = clamp01 x.
Proof.
  destruct (clamp01_cases x) as [(_ & _ & E)|[(_ & _ & E)|(_ & E)]]; rewrite E; [|done..].
  by rewrite E.
Qed.

Lemma atoms_ok_insert (m : gmap N rwkv_atom) k b :
  atoms_ok m → atom_shaped b → tv_settled (tv b) →
  (∀ x, x ∈ outgoing b → is_Some (m !! x)) →
  atoms_ok (<[k := b]> m).
Proof.
  intros Hok Hshape Htv Hrefs h a [[<- <-]|[Hne Hl]]%lookup_insert_Some.
  - split_and!; [done..|]. intros x Hx. rewrite lookup_insert_is_Some'. auto.
  - destruct (Hok h a Hl) as (? & ? & Hr). split_and!; [done..|].
    intros x Hx. rewrite lookup_insert_is_Some'. auto.
Qed.

Section Shape.
Context {T : Traversal}.

Lemma reachable_atoms_ok s : reachable s → atoms_ok (atoms s).
Proof.
  induction 1 as [|s ty nm Hs IH|s ty og Hs IH|s h a v Hs IH Hg|s h a v Hs IH Hg].
  - intros h a Hl. simpl in Hl. by rewrite lookup_empty in Hl.
  - destruct (add_node_cases s ty nm) as [[-> _]|[(n & hs & h & _ & _ & _ & _ & ->)|
      (n & _ & Hty & _ & ->)]]; [done..|]. simpl.
    apply atoms_ok_insert; [done| | |].
    + unfold atom_shaped. simpl. by rewrite Hty.
    + done.
    + by intros x ?%elem_of_nil.
  - destruct (add_link_cases s ty og) as [[-> _]|[(h & _ & _ & _ & _ & _ & ->)|
      (Hog & Hty & Hex & _ & ->)]]; [done..|]. simpl.
    apply atoms_ok_insert; [done| | |].
    + unfold atom_shaped. simpl. by rewrite (is_node_type_link _ Hty).
    + done.
    + by apply outgoing_exist_spec.
  - apply get_atom_Some in Hg as [_ Hl]. destruct (IH h a Hl) as (Hsh & Htv & Hr).
    simpl. apply atoms_ok_insert; [done..| |done].
    split; simpl; apply clamp01_idempotent.
  - apply get_atom_Some in Hg as [_ Hl]. destruct (IH h a Hl) as (Hsh & Htv & Hr).
    simpl. by apply atoms_ok_insert.
Qed.

(** X1.  Referential integrity: in every reachable store, each handle of a
    stored atom's outgoing list is the handle of a stored atom; when the
    store has room, [get_atom] returns that atom. *)
Theorem links_refer_to_stored_atoms s h a x :
  reachable s → atoms s !! h = Some a → x ∈ outgoing a →
  is_Some (atoms s !! x)
  ∧ (has_room s → is_Some (rwkv_atomspace_get_atom s x)).
Proof.
  intros Hreach Hl Hx.
  destruct (reachable_atoms_ok s Hreach h a Hl) as (_ & _ & Hr).
  destruct (Hr x Hx) as [b Hb]. split; [by exists b|].
  intros Hroom. exists b. apply get_atom_Some. split; [|done].
  pose proof (wf_keys _ (reachable_wf _ Hreach Hroom) _ _ Hb). lia.
Qed.

(** X2.  Nodes and links keep to their kind: in every reachable store a
    stored atom of node type has no outgoing handles, so that
    [get_outgoing] reports none and [get_name] its name; a stored atom of
    link type has a non-empty outgoing list, of which [get_outgoing]
    reports the first [max_count] entries, and [get_name] is null for it. *)
Theorem stored_atoms_keep_their_kind s h a max_count :
  reachable s → atoms s !! h = Some a →
  (is_node_type (rwkv_atom_get_type a) = true →
     outgoing a = [] ∧ rwkv_atom_get_outgoing a max_count = []
     ∧ rwkv_atom_get_name a = Some (name a))
  ∧ (is_link_type (rwkv_atom_get_type a) = true →
     outgoing a ≠ [] ∧ rwkv_atom_get_name a = None
     ∧ rwkv_atom_get_outgoing a max_count = take max_count (outgoing a)
     ∧ length (rwkv_atom_get_outgoing a max_count)
       = Nat.min max_count (length (outgoing a))).
Proof.
  intros Hreach Hl.
  destruct (reachable_atoms_ok s Hreach h a Hl) as (Hsh & _ & _).
  unfold atom_shaped in Hsh.
  unfold rwkv_atom_get_type, rwkv_atom_get_outgoing, rwkv_atom_get_name, is_link_type.
  split; intros Hty.
  - rewrite Hty in *. done.
  - apply negb_true_iff in Hty. rewrite Hty in *. simpl.
    destruct Hsh as [Hne _]. split_and!; [done..| |].
    + rewrite <- take_take. by rewrite firstn_all.
    + rewrite length_take. lia.
Qed.

(** X3.  Truth values of stored atoms are settled: in every reachable
    store both fields of every stored atom lie in [0, 1], and writing back
    the truth value that was read leaves the atom as it is. *)
Theorem stored_truth_values_settled s h a :
  reachable s → atoms s !! h = Some a →
  in_unit (strength (rwkv_atom_get_truth_value a)) = true
  ∧ in_unit (confidence (rwkv_atom_get_truth_value a)) = true
  ∧ rwkv_atom_set_truth_value a (rwkv_atom_get_truth_value a) = a.
Proof.
  intros Hreach Hl.
  destruct (reachable_atoms_ok s Hreach h a Hl) as (_ & [Hs Hc] & _).
  unfold rwkv_atom_get_truth_value, rwkv_atom_set_truth_value. split_and!.
  - rewrite <- Hs. apply clamp01_clamped.
  - rewrite <- Hc. apply clamp01_clamped.
  - rewrite Hs, Hc. by destruct a as [? ? ? ? [] ?].
Qed.

End Shape.

(** ** Identity and handles *)

Section Identity.
Context {T : Traversal}.

(** X4.  No duplicates: in a reachable store with room, two stored nodes of
    the same type and name are stored under one handle, and so are two
    stored links of the same type and outgoing list. *)
Theorem stored_atoms_unique s h1 a1 h2 a2 :
  reachable s → has_room s →
  atoms s !! h1 = Some a1 → atoms s !! h2 = Some a2 → type a1 = type a2 →
  (is_node_type (type a1) = true → name a1 = name a2 → h1 = h2 ∧ a1 = a2)
  ∧ (is_link_type (type a1) = true → outgoing a1 = outgoing a2 → h1 = h2 ∧ a1 = a2).
Proof.
  intros Hreach Hroom Hl1 Hl2 Hty. pose proof (reachable_wf _ Hreach Hroom) as Hwf.
  split; intros Hkind Heq.
  - assert (h1 = h2) as -> by by eapply (wf_node_unique _ Hwf).
    split; congruence.
  - assert (h1 = h2) as -> by by eapply (wf_link_unique _ Hwf).
    split; congruence.
Qed.

Lemma handles_dense s h :
  wf s → 1 ≤ h ≤ N.of_nat (size (atoms s)) → is_Some (atoms s !! h).
Proof.
  intros Hwf Hh. destruct (atoms s !! h) as [a|] eqn:Hl; [by exists a|]. exfalso.
  set (n := size (atoms s)) in *.
  set (full := list_to_set (N.of_nat <$> seq 1 n) : gset N).
  assert (Hfull : ∀ k, k ∈ full ↔ 1 ≤ k ≤ N.of_nat n).
  { intros k. unfold full. rewrite elem_of_list_to_set, list_elem_of_fmap. split.
    - intros (i & -> & Hi%elem_of_seq). lia.
    - intros Hk. exists (N.to_nat k). rewrite elem_of_seq. lia. }
  assert (Hsize : size full = n).
  { unfold full. rewrite size_list_to_set.
    - by rewrite length_fmap, length_seq.
    - apply NoDup_fmap_2; [apply _ | apply NoDup_seq]. }
  assert (Hsub : dom (atoms s) ⊆ full ∖ {[h]}).
  { intros k [a Ha]%elem_of_dom. apply elem_of_difference. split.
    - apply Hfull. pose proof (wf_keys _ Hwf _ _ Ha). pose proof (wf_next _ Hwf).
      fold n in H0. lia.
    - intros ->%elem_of_singleton. congruence. }
  apply subseteq_size in Hsub. rewrite size_dom in Hsub. fold n in Hsub.
  rewrite size_difference in Hsub.
  - rewrite Hsize, size_singleton in Hsub. assert (0 < n)%nat by lia. lia.
  - intros k ->%elem_of_singleton. by apply Hfull.
Qed.

(** X5.  Handles are dense: in a reachable store with room of [n] atoms,
    [get_atom] finds an atom exactly at the handles 1 to [n], and it finds
    there an atom that carries the handle. *)
Theorem handles_are_one_to_size s h :
  reachable s → has_room s →
  (is_Some (rwkv_atomspace_get_atom s h) ↔
   1 ≤ h ≤ N.of_nat (rwkv_atomspace_get_size s))
  ∧ ∀ a, rwkv_atomspace_get_atom s h = Some a → handle a = h.
Proof.
  intros Hreach Hroom. pose proof (reachable_wf _ Hreach Hroom) as Hwf.
  unfold rwkv_atomspace_get_size. split; [split|].
  - intros [a [_ Ha]%get_atom_Some].
    pose proof (wf_keys _ Hwf _ _ Ha). pose proof (wf_next _ Hwf). lia.
  - intros Hh. destruct (handles_dense s h Hwf Hh) as [a Ha]. exists a.
    apply get_atom_Some. split; [lia | done].
  - intros a [_ Ha]%get_atom_Some. by apply (wf_handle _ Hwf).
Qed.

(** X6.  Failure changes nothing.  [add_node] refuses a link type and a null
    name, [add_link] refuses a node type and an empty outgoing list, each
    with the invalid handle and the store as it was; and on a reachable
    store with room a call that returns the invalid handle has left the
    store as it was, while a call that returns another handle has the atom
    stored under it. *)
Theorem failed_creation_changes_nothing s ty nm og :
  (is_link_type ty = true ∨ nm = None →
     rwkv_atomspace_add_node s ty nm = (RWKV_INVALID_ATOM_HANDLE, s))
  ∧ (is_node_type ty = true ∨ og = [] →
     rwkv_atomspace_add_link s ty og = (RWKV_INVALID_ATOM_HANDLE, s))
  ∧ (reachable s → has_room s →
     let rn := rwkv_atomspace_add_node s ty nm in
     let rl := rwkv_atomspace_add_link s ty og in
     (rn.1 = RWKV_INVALID_ATOM_HANDLE → rn.2 = s)
     ∧ (rl.1 = RWKV_INVALID_ATOM_HANDLE → rl.2 = s)
     ∧ (rn.1 ≠ RWKV_INVALID_ATOM_HANDLE → is_Some (rwkv_atomspace_get_atom rn.2 rn.1))
     ∧ (rl.1 ≠ RWKV_INVALID_ATOM_HANDLE → is_Some (rwkv_atomspace_get_atom rl.2 rl.1))).
Proof.
  unfold RWKV_INVALID_ATOM_HANDLE. split_and!.
  - intros [Hty| ->]; [|by destruct ty].
    unfold rwkv_atomspace_add_node. rewrite (is_node_type_link _ Hty).
    by destruct nm.
  - intros [Hty| ->].
    + unfold rwkv_atomspace_add_link. rewrite (is_link_type_node _ Hty). simpl.
      by rewrite orb_true_r.
    + done.
  - intros Hreach Hroom. pose proof (reachable_wf _ Hreach Hroom) as Hwf.
    pose proof (wf_next _ Hwf) as Hnext. cbv zeta. split_and!.
    + destruct (add_node_cases s ty nm) as [[-> _]|[(n & hs & h & _ & _ & _ & Hf & ->)|
        (n & _ & _ & _ & ->)]]; simpl; [done| |lia].
      apply find_node_of_type_Some in Hf as (_ & a & Hl & _).
      pose proof (wf_keys _ Hwf _ _ Hl). lia.
    + destruct (add_link_cases s ty og) as [[-> _]|[(h & _ & _ & _ & _ & Hf & ->)|
        (_ & _ & _ & _ & ->)]]; simpl; [done| |lia].
      apply find_link_Some in Hf as (a & Hl%elem_of_iteration & _).
      pose proof (wf_keys _ Hwf _ _ Hl). lia.
    + destruct (add_node_cases s ty nm) as [[-> _]|[(n & hs & h & _ & _ & _ & Hf & ->)|
        (n & _ & _ & _ & ->)]]; simpl; [done| |]; intros Hv.
      * apply find_node_of_type_Some in Hf as (_ & a & Hl & _).
        exists a. by apply get_atom_Some.
      * eexists. apply get_atom_Some. split; [done|]. simpl. apply lookup_insert_eq.
    + destruct (add_link_cases s ty og) as [[-> _]|[(h & _ & _ & _ & _ & Hf & ->)|
        (_ & _ & _ & _ & ->)]]; simpl; [done| |]; intros Hv.
      * apply find_link_Some in Hf as (a & Hl%elem_of_iteration & _).
        exists a. by apply get_atom_Some.
      * eexists. apply get_atom_Some. split; [done|]. simpl. apply lookup_insert_eq.
Qed.

End Identity.

(** ** Truth values read back *)

Lemma SFcompare_Eq_finite x m e :
  SFcompare x (S754_finite false m e) = Some Eq → x = S754_finite false m e.
Proof.
  destruct x as [sx|sx| |sx mx ex]; simpl; [by destruct sx..|done|].
  destruct sx; [done|].
  destruct (Z.compare_spec ex e) as [->| |]; [|done..].
  change (Pos.compare_cont Eq mx m) with (Pos.compare mx m).
  destruct (Pos.compare_spec mx m) as [->| |]; done.
Qed.

Lemma SFcompare_Eq_zero x :
  SFcompare (S754_zero false) x = Some Eq → ∃ sx, x = S754_zero sx.
Proof. destruct x as [sx|sx| |sx mx ex]; simpl; [by eauto|by destruct sx..|done|by destruct sx]. Qed.

Lemma clamp01_in_unit x : in_unit x = true → x ≠ S754_zero true → clamp01 x = x.
Proof.
  intros [Hz Ho]%andb_true_iff Hneg.
  destruct (clamp01_cases x) as [(_ & _ & E)|[(_ & H0 & E)|(H1 & E)]]; rewrite E; [done| |].
  - clear E Ho. revert Hz H0. unfold F32.le, F32.lt, SFleb, SFltb.
    destruct (SFcompare F32.zero x) as [[]|] eqn:Hc; try discriminate. intros _ _.
    apply SFcompare_Eq_zero in Hc as [[] ->]; [by destruct Hneg | reflexivity].
  - clear E Hz Hneg. revert Ho H1. unfold F32.le, F32.lt, SFleb, SFltb.
    destruct (SFcompare x F32.one) as [[]|] eqn:Hc; try discriminate. intros _ _.
    symmetry. exact (SFcompare_Eq_finite x _ _ Hc).
Qed.

(** X7.  A truth value whose fields lie in [0, 1] (and are not the negative
    zero) is read back exactly as it was set. *)
Theorem truth_value_read_back a v :
  in_unit (strength v) = true → in_unit (confidence v) = true →
  strength v ≠ S754_zero true → confidence v ≠ S754_zero true →
  rwkv_atom_get_truth_value (rwkv_atom_set_truth_value a v) = v.
Proof.
  intros Hs Hc Hs' Hc'. unfold rwkv_atom_get_truth_value. simpl.
  rewrite !clamp01_in_unit by done. by destruct v.
Qed.

(** ** Queries and their buffers *)

Section Buffers.
Context {T : Traversal}.

Lemma pattern_match_take s pattern :
  ∃ l, ∀ m, rwkv_atomspace_pattern_match s pattern m = take m l.
Proof.
  unfold rwkv_atomspace_pattern_match.
  destruct (pattern =? RWKV_INVALID_ATOM_HANDLE);
    [exists []; intros m; by rewrite take_nil|].
  destruct (atoms s !! pattern) as [pa|]; [|exists []; intros m; by rewrite take_nil].
  eexists. intros m. rewrite pattern_scan_take. simpl. by rewrite Nat.sub_0_r.
Qed.

Lemma forward_inference_take s premise :
  premise ≠ 0 →
  ∃ l, ∀ m, rwkv_atomspace_forward_inference s premise m = Some (take m l).
Proof. intros Hne. eexists. intros m. by apply forward_inference_eq. Qed.

(** X8.  A smaller buffer gets a prefix: what [pattern_match] and
    [forward_inference] write into a buffer of capacity [m] are the first
    [m] entries of what they write into any larger buffer; and when fewer
    entries are written than the buffer holds, a larger buffer gets no
    more. *)
Theorem smaller_buffer_gets_prefix s h m m' :
  (m ≤ m')%nat →
  rwkv_atomspace_pattern_match s h m = take m (rwkv_atomspace_pattern_match s h m')
  ∧ rwkv_atomspace_forward_inference s h m
    = take m <$> rwkv_atomspace_forward_inference s h m'
  ∧ ((length (rwkv_atomspace_pattern_match s h m) < m)%nat →
     rwkv_atomspace_pattern_match s h m' = rwkv_atomspace_pattern_match s h m)
  ∧ (∀ cs, rwkv_atomspace_forward_inference s h m = Some cs → (length cs < m)%nat →
     rwkv_atomspace_forward_inference s h m' = Some cs).
Proof.
  intros Hle. destruct (pattern_match_take s h) as [l Hl]. rewrite !Hl.
  assert (Hmin : Nat.min m m' = m) by lia.
  split_and!.
  - by rewrite take_take, Hmin.
  - unfold rwkv_atomspace_forward_inference.
    destruct (h =? RWKV_INVALID_ATOM_HANDLE); [done|]. simpl.
    rewrite !inference_scan_take. simpl. by rewrite !Nat.sub_0_r, take_take, Hmin.
  - rewrite length_take. intros Hlt. rewrite !take_ge by lia. done.
  - intros cs. unfold rwkv_atomspace_forward_inference.
    destruct (h =? RWKV_INVALID_ATOM_HANDLE); [done|].
    rewrite !inference_scan_take. simpl. rewrite !Nat.sub_0_r.
    intros [= <-]. rewrite length_take. intros Hlt. by rewrite !take_ge by lia.
Qed.

(** X9.  Matching is symmetric: in a reachable store with room, when
    [pattern_match] for [p] reports [h], then [pattern_match] for [h], with
    a buffer that holds the whole store, reports [p]. *)
Theorem pattern_match_symmetric s p h m :
  reachable s → has_room s →
  h ∈ rwkv_atomspace_pattern_match s p m →
  p ∈ rwkv_atomspace_pattern_match s h (rwkv_atomspace_get_size s).
Proof.
  intros Hreach Hroom Hin. pose proof (reachable_wf _ Hreach Hroom) as Hwf.
  unfold rwkv_atomspace_pattern_match in Hin.
  destruct (N.eqb_spec p RWKV_INVALID_ATOM_HANDLE) as [|Hp];
    [by apply elem_of_nil in Hin|].
  destruct (atoms s !! p) as [pa|] eqn:Hpa; [|by apply elem_of_nil in Hin].
  rewrite pattern_scan_take in Hin. simpl in Hin.
  apply subseteq_take, list_elem_of_fmap in Hin
    as ([h' a] & Hh' & [[Hty Hne] Hl%elem_of_iteration]%list_elem_of_filter).
  simpl in *. subst h'. pose proof (wf_keys _ Hwf _ _ Hl) as Hh.
  rewrite (pattern_match_eq s h a) by (done || lia).
  rewrite take_ge.
  - apply list_elem_of_fmap. exists (p, pa). split; [done|].
    apply list_elem_of_filter. split; [by split | by apply elem_of_iteration].
  - rewrite length_fmap. unfold rwkv_atomspace_get_size.
    rewrite <- (length_iteration (atoms s)). apply length_filter.
Qed.

(** X10.  Conclusions are atoms of the store: [forward_inference] fails on
    the invalid handle; in a reachable store with room its conclusions are
    handles of stored atoms, no handle is concluded twice, and a valid
    premise that is not stored yields no conclusion. *)
Theorem conclusions_are_stored s premise m :
  rwkv_atomspace_forward_inference s RWKV_INVALID_ATOM_HANDLE m = None
  ∧ (reachable s → has_room s → premise ≠ RWKV_INVALID_ATOM_HANDLE →
     ∃ cs, rwkv_atomspace_forward_inference s premise m = Some cs
       ∧ NoDup cs
       ∧ (∀ c, c ∈ cs → is_Some (rwkv_atomspace_get_atom s c))
       ∧ (rwkv_atomspace_get_atom s premise = None → cs = [])).
Proof.
  split; [done|]. intros Hreach Hroom Hne.
  pose proof (reachable_wf _ Hreach Hroom) as Hwf.
  eexists. split; [by apply forward_inference_eq|]. split_and!.
  - eapply sublist_NoDup; [|apply sublist_take].
    apply NoDup_fmap_2_strong; [|apply NoDup_filter, NoDup_iteration].
    intros [h1 a1] [h2 a2] [Hm1 Hl1%elem_of_iteration]%list_elem_of_filter
      [Hm2 Hl2%elem_of_iteration]%list_elem_of_filter Heq.
    apply implies_from_spec in Hm1 as (Hty1 & c1 & Ho1).
    apply implies_from_spec in Hm2 as (Hty2 & c2 & Ho2).
    unfold conclusion in Heq. simpl in Heq. rewrite Ho1, Ho2 in Heq. simpl in Heq.
    assert (h1 = h2) as ->.
    { eapply (wf_link_unique _ Hwf); eauto; [by rewrite Hty1|congruence..]. }
    congruence.
  - intros c Hc%subseteq_take. apply elem_of_conclusions in Hc as (h & a & Hl & _ & Ho).
    destruct (wf_outgoing _ Hwf h a c Hl) as [b Hb]; [rewrite Ho; set_solver|].
    exists b. apply get_atom_Some. split; [|done].
    pose proof (wf_keys _ Hwf _ _ Hb). unfold RWKV_INVALID_ATOM_HANDLE. lia.
  - intros Hnone.
    destruct (take m _) as [|c cs] eqn:E; [done|]. exfalso.
    assert (c ∈ take m (conclusion <$> filter (implies_from premise) (iteration (atoms s))))
      as Hc by (rewrite E; left).
    apply subseteq_take, elem_of_conclusions in Hc as (h & a & Hl & _ & Ho).
    destruct (wf_outgoing _ Hwf h a premise Hl) as [b Hb]; [rewrite Ho; left|].
    assert (rwkv_atomspace_get_atom s premise = Some b) by by apply get_atom_Some.
    congruence.
Qed.

End Buffers.

(** ** Decimal names *)

Lemma digit_value_pretty_N_char d : d < 10 → digit_value (pretty_N_char d) = Some d.
Proof.
  intros Hd.
  assert (d = 0 ∨ d = 1 ∨ d = 2 ∨ d = 3 ∨ d = 4 ∨ d = 5 ∨ d = 6 ∨ d = 7 ∨ d = 8 ∨ d = 9)
    as Hcases by lia.
  repeat (destruct Hcases as [->|Hcases]; [reflexivity|]). by subst.
Qed.

Lemma read_digits_pretty_N_go x str :
  read_digits (pretty_N_go x str) 0 = read_digits str x.
Proof.
  revert str. induction (N.lt_wf_0 x) as [x _ IH]; intros str.
  assert (x = 0 ∨ 0 < x) as [->|Hx] by lia; [by rewrite pretty_N_go_0|].
  rewrite pretty_N_go_step by done. rewrite IH by (by apply N.div_lt).
  simpl. rewrite digit_value_pretty_N_char by (by apply N.mod_lt).
  f_equal. rewrite N.mul_comm. symmetry. by apply N.div_mod.
Qed.

Lemma pretty_N_go_head x str :
  0 < x → ∃ d rest, d < 10 ∧ pretty_N_go x str = String (pretty_N_char d) rest.
Proof.
  revert str. induction (N.lt_wf_0 x) as [x _ IH]; intros str Hx.
  rewrite pretty_N_go_step by done.
  destruct (N.eq_0_gt_0_cases (x `div` 10)) as [->|Hq].
  - rewrite pretty_N_go_0. exists (x `mod` 10), str. split; [by apply N.mod_lt | done].
  - apply IH; [by apply N.div_lt | done].
Qed.

Lemma stoul_digits d rest :
  d < 10 → read_digits (String (pretty_N_char d) rest) 0 < uint64_modulus →
  stoul (String (pretty_N_char d) rest) = Some (read_digits (String (pretty_N_char d) rest) 0).
Proof.
  intros Hd Hv.
  assert (d = 0 ∨ d = 1 ∨ d = 2 ∨ d = 3 ∨ d = 4 ∨ d = 5 ∨ d = 6 ∨ d = 7 ∨ d = 8 ∨ d = 9)
    as Hcases by lia.
  unfold stoul.
  assert (∀ v, v < uint64_modulus →
            (if uint64_modulus <=? v then None else Some v) = Some v) as Hfits.
  { intros v Hlt. by destruct (N.leb_spec uint64_modulus v); [lia|]. }
  repeat (destruct Hcases as [->|Hcases]; [by apply Hfits|]).
  subst. by apply Hfits.
Qed.

(** [std::stoul] reads back what [std::to_string] printed. *)
Lemma stoul_pretty (n : N) : n < uint64_modulus → stoul (pretty n) = Some n.
Proof.
  intros Hn. unfold pretty, pretty_N. case_decide as Hz; [by subst|].
  destruct (pretty_N_go_head n "") as (d & rest & Hd & E); [lia|].
  pose proof (read_digits_pretty_N_go n "") as Hr. simpl in Hr.
  rewrite E in *. rewrite stoul_digits; [by rewrite Hr|done|by rewrite Hr].
Qed.

Lemma substring_all str : String.substring 0 (String.length str) str = str.
Proof. induction str as [|c str IH]; simpl; [done | by rewrite IH]. Qed.

Lemma decode_target_encoded h i x :
  N.of_nat i < uint64_modulus → decode_target (encoded_atom h i x) = Some (N.of_nat i).
Proof.
  intros Hi. unfold decode_target. simpl.
  change ("" +:+ pretty i) with (pretty i).
  replace (String.prefix "" (pretty i)) with true by (by destruct (pretty i)).
  rewrite Nat.sub_0_r, substring_all. by apply stoul_pretty.
Qed.

Lemma decode_entry_target a state :
  decode_entry a state =
  match decode_target a with
  | Some index =>
      if index <? N.of_nat (length state)
      then <[N.to_nat index := decode_value a]> state else state
  | None => state
  end.
Proof.
  unfold decode_entry, decode_target, decode_value.
  by destruct (bool_decide _ && String.prefix _ _).
Qed.

(** X11.  The decoder finds the index in the name the encoder made: for an
    index [i] below 2^64, [std::stoul] reads [i] back from what
    [std::to_string] printed, and the decoder's loop body, run on a concept
    node named "state_" followed by that print, writes its value to entry
    [i] of the buffer, or leaves the buffer alone when [i] lies beyond it. *)
Theorem encoded_name_decodes a i state :
  N.of_nat i < uint64_modulus →
  type a = RWKV_ATOM_CONCEPT_NODE → name a = "state_" +:+ pretty i →
  stoul (pretty i) = Some (N.of_nat i)
  ∧ decode_entry a state
    = if (i <? length state)%nat then <[i := decode_value a]> state else state.
Proof.
  intros Hi Hty Hname. split; [by apply stoul_pretty|].
  rewrite decode_entry_target.
  replace (decode_target a) with (Some (N.of_nat i)).
  2:{ rewrite <- (decode_target_encoded 0 i F32.zero Hi).
      unfold decode_target. simpl. by rewrite Hty, Hname. }
  rewrite Nat2N.id.
  destruct (N.ltb_spec (N.of_nat i) (N.of_nat (length state)));
    destruct (Nat.ltb_spec i (length state)); (done || lia).
Qed.

(** ** Decoding a store *)

Lemma length_decode_entry a state : length (decode_entry a state) = length state.
Proof.
  rewrite decode_entry_target. destruct (decode_target a) as [index|]; [|done].
  destruct (index <? N.of_nat (length state)); [|done]. apply length_insert.
Qed.

Lemma length_decode_fold (l : list (N * rwkv_atom)) state :
  length (fold_left (λ state '(_, a), decode_entry a state) l state) = length state.
Proof.
  revert state. induction l as [|[h a] l IH]; intros state; simpl; [done|].
  by rewrite IH, length_decode_entry.
Qed.

Lemma decode_entry_other a state i :
  decode_target a ≠ Some (N.of_nat i) → decode_entry a state !! i = state !! i.
Proof.
  intros Hne. rewrite decode_entry_target.
  destruct (decode_target a) as [index|]; [|done].
  destruct (index <? N.of_nat (length state)); [|done].
  apply list_lookup_insert_ne. intros <-. apply Hne. by rewrite N2Nat.id.
Qed.

Lemma decode_entry_hit a state i :
  decode_target a = Some (N.of_nat i) → (i < length state)%nat →
  decode_entry a state !! i = Some (decode_value a).
Proof.
  intros Ht Hi. rewrite decode_entry_target, Ht.
  destruct (N.ltb_spec (N.of_nat i) (N.of_nat (length state))); [|lia].
  rewrite Nat2N.id. by apply list_lookup_insert_eq.
Qed.

Lemma decode_fold_other (l : list (N * rwkv_atom)) state i :
  (∀ p, p ∈ l → decode_target p.2 ≠ Some (N.of_nat i)) →
  fold_left (λ state '(_, a), decode_entry a state) l state !! i = state !! i.
Proof.
  revert state. induction l as [|[h a] l IH]; intros state Hall; simpl; [done|].
  rewrite IH by (intros p Hp; apply Hall; by right).
  apply decode_entry_other. apply (Hall (h, a)). left.
Qed.

Lemma decode_fold_hit (l : list (N * rwkv_atom)) state i v :
  (i < length state)%nat →
  (∀ p, p ∈ l → decode_target p.2 = Some (N.of_nat i) → decode_value p.2 = v) →
  (∃ p, p ∈ l ∧ decode_target p.2 = Some (N.of_nat i)) →
  fold_left (λ state '(_, a), decode_entry a state) l state !! i = Some v.
Proof.
  revert state. induction l as [|[h a] l IH]; intros state Hi Hval Hex; simpl.
  { destruct Hex as (p & []%elem_of_nil & _). }
  destruct (decide (Exists (λ p, decode_target p.2 = Some (N.of_nat i)) l)) as [Hl|Hl].
  - apply IH.
    + by rewrite length_decode_entry.
    + intros p Hp. apply Hval. by right.
    + apply Exists_exists in Hl. done.
  - rewrite decode_fold_other.
    + destruct Hex as (p & [->|Hp]%elem_of_cons & Ht).
      * rewrite decode_entry_hit by done. f_equal. apply (Hval (h, a)); [left|done].
      * destruct Hl. apply Exists_exists. eauto.
    + intros p Hp Ht. apply Hl, Exists_exists. eauto.
Qed.

Section Decoding.
Context {T : Traversal}.

(** X12.  Decoding fills the buffer and nothing else: the buffer that
    [rwkv_atoms_to_context] leaves has the length it was given, and an
    entry is zero unless the store holds a concept node whose name is
    "state_" followed by text that [std::stoul] reads as the entry's
    index. *)
Theorem decode_writes_named_entries_only s state_len i :
  length (rwkv_atoms_to_context s state_len) = state_len
  ∧ ((i < state_len)%nat →
     (∀ h a, atoms s !! h = Some a → decode_target a ≠ Some (N.of_nat i)) →
     rwkv_atoms_to_context s state_len !! i = Some F32.zero)
  ∧ ∀ a, decode_target a ≠ None →
      type a = RWKV_ATOM_CONCEPT_NODE ∧ String.prefix "state_" (name a) = true.
Proof.
  unfold rwkv_atoms_to_context. split_and!.
  - by rewrite length_decode_fold, length_replicate.
  - intros Hi Hnone. rewrite decode_fold_other.
    + by apply lookup_replicate_2.
    + intros [h a] Hp%elem_of_iteration. by apply (Hnone h).
  - intros a. unfold decode_target.
    destruct (bool_decide (type a = RWKV_ATOM_CONCEPT_NODE)) eqn:Hty; [|done].
    destruct (String.prefix "state_" (name a)); [|done].
    by apply bool_decide_eq_true in Hty.
Qed.

End Decoding.

(** ** Encoding into a new store, and back *)

Lemma encode_loop_snoc i l x s :
  encode_loop i (l ++ [x]) s = encode_entry (i + length l) x (encode_loop i l s).
Proof.
  revert i s. induction l as [|y l IH]; intros i s; simpl.
  - by rewrite Nat.add_0_r.
  - rewrite IH. f_equal. lia.
Qed.

Lemma append_inj_r (p a b : string) : p +:+ a = p +:+ b → a = b.
Proof. induction p as [|c p IH]; simpl; [done|]. intros [= H]. by apply IH. Qed.

Lemma not_stored_not_indexed s ty n :
  wf s → ¬ node_stored s ty n →
  name_index s !! n ≫= find_node_of_type (atoms s) ty = None.
Proof.
  intros Hwf Hno.
  destruct (name_index s !! n) as [hs|] eqn:Hi; [|done]. simpl.
  destruct (find_node_of_type (atoms s) ty hs) as [h|] eqn:Hf; [|done].
  destruct Hno. apply find_node_of_type_Some in Hf as (Hin & a & Hl & Ha).
  destruct (wf_index_sound _ Hwf _ _ _ Hi Hin) as (a' & Hl' & Hn & _).
  exists h, a. split_and!; congruence.
Qed.

Lemma add_node_fresh s ty n :
  wf s → is_node_type ty = true → ¬ node_stored s ty n →
  rwkv_atomspace_add_node s ty (Some n) = (next_handle s, node_inserted s ty n).
Proof.
  intros Hwf Hty Hno. unfold rwkv_atomspace_add_node.
  by rewrite Hty, not_stored_not_indexed.
Qed.

Lemma encode_entry_quiet i x s :
  F32.lt F32.tenth (F32.abs x) = false → encode_entry i x s = s.
Proof. intros H. unfold encode_entry. by rewrite H. Qed.

Lemma encode_entry_significant i x s :
  wf s → F32.lt F32.tenth (F32.abs x) = true →
  ¬ node_stored s RWKV_ATOM_CONCEPT_NODE ("state_" +:+ pretty i) →
  encode_entry i x s =
  store_atom (node_inserted s RWKV_ATOM_CONCEPT_NODE ("state_" +:+ pretty i))
    (next_handle s) (encoded_atom (next_handle s) i x).
Proof.
  intros Hwf Hsig Hno. unfold encode_entry. rewrite Hsig.
  rewrite add_node_fresh by done.
  pose proof (wf_next _ Hwf) as Hnext.
  destruct (N.eqb_spec (next_handle s) RWKV_INVALID_ATOM_HANDLE) as [E|_];
    [unfold RWKV_INVALID_ATOM_HANDLE in E; lia|].
  unfold rwkv_atomspace_get_atom.
  destruct (N.eqb_spec (next_handle s) RWKV_INVALID_ATOM_HANDLE) as [E|_];
    [unfold RWKV_INVALID_ATOM_HANDLE in E; lia|].
  cbn [node_inserted atoms]. by rewrite lookup_insert_eq.
Qed.

Lemma encode_prefix l :
  (length l ≤ 100)%nat →
  wf (encode_loop 0 l rwkv_atomspace_create)
  ∧ (size (atoms (encode_loop 0 l rwkv_atomspace_create)) ≤ length l)%nat
  ∧ encodes l (atoms (encode_loop 0 l rwkv_atomspace_create)).
Proof.
  induction l as [|x l IH] using rev_ind; intros Hlen.
  { simpl. split_and!; [apply wf_create|by rewrite map_size_empty|].
    split; [intros h a Hl; by rewrite lookup_empty in Hl|by intros j x ?]. }
  rewrite length_app in Hlen. simpl in Hlen.
  destruct IH as (Hwf & Hsize & HA & HB); [lia|].
  rewrite encode_loop_snoc. simpl.
  set (s := encode_loop 0 l rwkv_atomspace_create) in *.
  destruct (F32.lt F32.tenth (F32.abs x)) eqn:Hsig.
  - assert (Hno : ¬ node_stored s RWKV_ATOM_CONCEPT_NODE ("state_" +:+ pretty (length l))).
    { intros (h & a & Hl & _ & Hn). destruct (HA h a Hl) as (j & y & Hj & _ & ->).
      simpl in Hn. apply append_inj_r, (inj pretty) in Hn.
      apply lookup_lt_Some in Hj. lia. }
    rewrite encode_entry_significant by done.
    pose proof (wf_fresh _ Hwf) as Hfresh.
    assert (Hroom : has_room (node_inserted s RWKV_ATOM_CONCEPT_NODE
                                ("state_" +:+ pretty (length l)))).
    { unfold has_room. simpl. rewrite map_size_insert_None, uint64_modulus_eq by done. lia. }
    split_and!.
    + apply (wf_store_atom _ _
               (with_name (new_atom (next_handle s) RWKV_ATOM_CONCEPT_NODE)
                  ("state_" +:+ pretty (length l))));
        [apply wf_node_inserted; [done..|by apply not_stored_not_indexed|done]
        |simpl; apply lookup_insert_eq|done..].
    + simpl. rewrite map_size_insert_Some by (by rewrite lookup_insert_eq).
      rewrite map_size_insert_None, length_app by done. simpl. lia.
    + split; simpl.
      * intros h a [[<- <-]|[Hne Hl]]%lookup_insert_Some.
        { exists (length l), x. split_and!; [|done..].
          by rewrite lookup_app_r, Nat.sub_diag. }
        rewrite lookup_insert_ne in Hl by done.
        destruct (HA h a Hl) as (j & y & Hj & Hy & ->).
        exists j, y. split_and!; [|done..]. by apply lookup_app_l_Some.
      * intros j y Hj Hy. apply lookup_app_Some in Hj as [Hj|[Hge Hj]].
        { destruct (HB j y Hj Hy) as [h Hh]. exists h.
          rewrite !lookup_insert_ne; [done|congruence..]. }
        apply list_lookup_singleton_Some in Hj as [Hj ->].
        replace j with (length l) by lia.
        exists (next_handle s). by rewrite lookup_insert_eq.
  - rewrite encode_entry_quiet by done. split_and!; [done|rewrite length_app; lia|].
    split.
    + intros h a Hl. destruct (HA h a Hl) as (j & y & Hj & Hy & ->).
      exists j, y. split_and!; [|done..]. by apply lookup_app_l_Some.
    + intros j y Hj Hy. apply lookup_app_Some in Hj as [Hj|[Hge Hj]]; [by apply HB|].
      apply list_lookup_singleton_Some in Hj as [Hj ->]. congruence.
Qed.

Lemma decode_value_encoded h i x :
  decode_value (encoded_atom h i x)
  = F32.mul (clamp01 (F32.abs x)) (if F32.lt F32.zero x then F32.one else F32.minus_one).
Proof.
  unfold decode_value. simpl. destruct (F32.lt F32.zero x) eqn:E; [by rewrite E|done].
Qed.

Section Round_trip_general.
Context {T : Traversal}.

(** X13.  The round trip through a new store, entry by entry: encoding a
    state vector into a new store and decoding that store into a buffer of
    the same length gives, at an index below 100 whose entry [x] has a
    magnitude above [0.1f], the magnitude of [x] clamped into [0, 1] with
    the sign plus for [x > 0] and minus otherwise; and zero at every other
    index. *)
Theorem bridge_round_trip_entrywise state i x :
  state !! i = Some x →
  rwkv_atoms_to_context (rwkv_context_to_atoms rwkv_atomspace_create state)
    (length state) !! i
  = Some (if (i <? 100)%nat then round_trip_value x else F32.zero).
Proof.
  intros Hx. pose proof (lookup_lt_Some _ _ _ Hx) as Hi.
  unfold rwkv_context_to_atoms. rewrite take_min_length.
  destruct (encode_prefix (take 100 state)) as (_ & _ & HA & HB);
    [rewrite length_take; lia|].
  set (s := encode_loop 0 (take 100 state) rwkv_atomspace_create) in *.
  assert (Htarget : ∀ h a, atoms s !! h = Some a →
            ∃ j y, state !! j = Some y ∧ (j < 100)%nat
                   ∧ F32.lt F32.tenth (F32.abs y) = true
                   ∧ a = encoded_atom h j y ∧ decode_target a = Some (N.of_nat j)).
  { intros h a Hl. destruct (HA h a Hl) as (j & y & Hj & Hy & ->).
    pose proof (lookup_lt_Some _ _ _ Hj) as Hlt. rewrite length_take in Hlt.
    rewrite lookup_take_lt in Hj by lia.
    exists j, y. split_and!; [done|lia|done..|].
    apply decode_target_encoded. rewrite uint64_modulus_eq. lia. }
  unfold rwkv_atoms_to_context.
  destruct (Nat.ltb_spec i 100) as [Hlt|Hge].
  - unfold round_trip_value. destruct (F32.lt F32.tenth (F32.abs x)) eqn:Hsig.
    + apply decode_fold_hit.
      * by rewrite length_replicate.
      * intros [h a] Hp%elem_of_iteration Ht. simpl in *.
        destruct (Htarget h a Hp) as (j & y & Hj & _ & _ & -> & Ht').
        assert (j = i) as -> by (rewrite Ht' in Ht; injection Ht; lia).
        assert (y = x) as -> by congruence. apply decode_value_encoded.
      * destruct (HB i x) as [h Hh]; [by rewrite lookup_take_lt by lia|done|].
        exists (h, encoded_atom h i x). split; [by apply elem_of_iteration|].
        apply decode_target_encoded. rewrite uint64_modulus_eq. lia.
    + rewrite decode_fold_other; [by apply lookup_replicate_2|].
      intros [h a] Hp%elem_of_iteration Ht. simpl in *.
      destruct (Htarget h a Hp) as (j & y & Hj & _ & Hy & _ & Ht').
      assert (j = i) as -> by (rewrite Ht' in Ht; injection Ht; lia).
      congruence.
  - rewrite decode_fold_other; [by apply lookup_replicate_2|].
    intros [h a] Hp%elem_of_iteration Ht. simpl in *.
    destruct (Htarget h a Hp) as (j & y & _ & Hj & _ & _ & Ht').
    rewrite Ht' in Ht. injection Ht. lia.
Qed.

Lemma store_atom_twice s h a b : store_atom (store_atom s h a) h b = store_atom s h b.
Proof. unfold store_atom. simpl. by rewrite insert_insert_eq. Qed.

Lemma reachable_encode_entry i x s :
  reachable s →
  reachable (encode_entry i x s)
  ∧ (size (atoms s) ≤ size (atoms (encode_entry i x s)) ≤ S (size (atoms s)))%nat.
Proof.
  intros Hs. unfold encode_entry.
  destruct (F32.lt F32.tenth (F32.abs x)); [|split; [done|lia]].
  set (nm := Some ("state_" +:+ pretty i)).
  pose proof (reachable_add_node s RWKV_ATOM_CONCEPT_NODE nm Hs) as Hs1.
  assert (size (atoms s) ≤ size (atoms (rwkv_atomspace_add_node s RWKV_ATOM_CONCEPT_NODE nm).2)
          ≤ S (size (atoms s)))%nat as Hsize.
  { split; [apply add_node_size|].
    destruct (add_node_cases s RWKV_ATOM_CONCEPT_NODE nm)
      as [[-> _]|[(n & hs & h & _ & _ & _ & _ & ->)|(n & _ & _ & _ & ->)]];
      simpl; [lia..|].
    rewrite map_size_insert. destruct (atoms s !! next_handle s); simpl; lia. }
  destruct (rwkv_atomspace_add_node s RWKV_ATOM_CONCEPT_NODE nm) as [h s1]. simpl in *.
  destruct (h =? RWKV_INVALID_ATOM_HANDLE); [done|].
  destruct (rwkv_atomspace_get_atom s1 h) as [atom|] eqn:Hg; [|done].
  pose proof Hg as [Hh Hl]%get_atom_Some. split.
  - rewrite <- (store_atom_twice s1 h
                  (rwkv_atom_set_truth_value atom
                     (mk_tv (F32.abs x) F32.four_fifths))).
    apply reachable_set_attention_value; [by apply reachable_set_truth_value|].
    apply get_atom_Some. split; [done|]. simpl. apply lookup_insert_eq.
  - simpl. rewrite map_size_insert_Some by done. done.
Qed.

Lemma reachable_encode_loop i l s :
  reachable s →
  reachable (encode_loop i l s)
  ∧ (size (atoms s) ≤ size (atoms (encode_loop i l s)) ≤ size (atoms s) + length l)%nat.
Proof.
  revert i s. induction l as [|x l IH]; intros i s Hs; simpl; [split; [done|lia]|].
  destruct (reachable_encode_entry i x s Hs) as [Hs' Hsz].
  destruct (IH (S i) _ Hs') as [Hr Hsz']. split; [done|lia].
Qed.

(** X14.  The encoder is a client of the store: what
    [rwkv_context_to_atoms] leaves is a store that [add_node] and
    annotation writes can build, so that all that holds of reachable stores
    holds of it; the store does not shrink and grows by at most one atom
    for each of the first 100 entries of the state. *)
Theorem encoding_stays_reachable s state :
  reachable s →
  reachable (rwkv_context_to_atoms s state)
  ∧ (rwkv_atomspace_get_size s ≤ rwkv_atomspace_get_size (rwkv_context_to_atoms s state)
     ≤ rwkv_atomspace_get_size s + Nat.min (length state) 100)%nat.
Proof.
  intros Hs. unfold rwkv_context_to_atoms, rwkv_atomspace_get_size.
  destruct (reachable_encode_loop 0 (take (Nat.min (length state) 100) state) s Hs)
    as [Hr Hsz].
  split; [done|]. rewrite length_take in Hsz. lia.
Qed.

End Round_trip_general.

(** ** Link signatures *)

(** [String.append] does not reduce under [simpl]. *)
Ltac string_app :=
  repeat first
    [ progress change (String ?c ?a +:+ ?b) with (String c (a +:+ b))
    | progress change (EmptyString +:+ ?b) with b ].

Lemma string_app_assoc (a b c : string) : (a +:+ b) +:+ c = a +:+ (b +:+ c).
Proof. induction a as [|x a IH]; string_app; [done | by rewrite IH]. Qed.

Lemma string_app_nil_r (a : string) : a +:+ "" = a.
Proof. induction a as [|x a IH]; string_app; [done | by rewrite IH]. Qed.

Lemma signature_loop_body i og sig :
  signature_loop i og sig = sig +:+ signature_body i og.
Proof.
  revert i sig. induction og as [|h og IH]; intros i sig; simpl.
  - by rewrite string_app_nil_r.
  - rewrite IH. destruct i; rewrite !string_app_assoc; by string_app.
Qed.

Lemma all_digits_pretty_N_go x str :
  all_digits str = true → all_digits (pretty_N_go x str) = true.
Proof.
  revert str. induction (N.lt_wf_0 x) as [x _ IH]; intros str Hstr.
  destruct (N.eq_0_gt_0_cases x) as [->|Hx]; [by rewrite pretty_N_go_0|].
  rewrite pretty_N_go_step by done. apply IH; [by apply N.div_lt|].
  simpl. rewrite digit_value_pretty_N_char by (by apply N.mod_lt). by rewrite Hstr.
Qed.

Lemma all_digits_pretty (n : N) : all_digits (pretty n) = true.
Proof.
  unfold pretty, pretty_N. case_decide; [done|]. by apply all_digits_pretty_N_go.
Qed.

Lemma pretty_nonempty (n : N) : ∃ c rest, pretty n = String c rest.
Proof.
  unfold pretty, pretty_N. case_decide as Hz; [by eauto|].
  destruct (pretty_N_go_head n "") as (d & rest & _ & E); [lia|]. eauto.
Qed.

Lemma digits_stop_inj d1 d2 t1 t2 :
  all_digits d1 = true → all_digits d2 = true → stops t1 → stops t2 →
  d1 +:+ t1 = d2 +:+ t2 → d1 = d2 ∧ t1 = t2.
Proof.
  revert d2. induction d1 as [|c d1 IH]; intros [|c' d2] H1 H2 Ht1 Ht2;
    string_app; simpl in *.
  - done.
  - intros ->. simpl in Ht1. apply andb_true_iff in H2 as [Hc%bool_decide_eq_true _].
    rewrite Ht1 in Hc. by destruct Hc.
  - intros <-. simpl in Ht2. apply andb_true_iff in H1 as [Hc%bool_decide_eq_true _].
    rewrite Ht2 in Hc. by destruct Hc.
  - intros [= -> E]. apply andb_true_iff in H1 as [_ H1].
    apply andb_true_iff in H2 as [_ H2].
    destruct (IH d2 H1 H2 Ht1 Ht2 E) as [-> ->]. done.
Qed.

Lemma stops_signature_body i og : stops (signature_body (S i) og).
Proof. by destruct og. Qed.

Lemma signature_body_S_inj og1 og2 i j :
  signature_body (S i) og1 = signature_body (S j) og2 → og1 = og2.
Proof.
  revert og2 i j. induction og1 as [|h1 og1 IH]; intros [|h2 og2] i j; simpl; [done..|].
  intros [= E].
  apply digits_stop_inj in E as [Eh Eb];
    try apply all_digits_pretty; try apply stops_signature_body.
  apply (inj pretty) in Eh as ->. by rewrite (IH _ _ _ Eb).
Qed.

Lemma signature_body_0_inj og1 og2 :
  signature_body 0 og1 = signature_body 0 og2 → og1 = og2.
Proof.
  destruct og1 as [|h1 og1], og2 as [|h2 og2]; simpl; [done| | |].
  - destruct (pretty_nonempty h2) as (c & rest & ->). by string_app.
  - destruct (pretty_nonempty h1) as (c & rest & ->). by string_app.
  - intros E. apply digits_stop_inj in E as [Eh Eb];
      try apply all_digits_pretty; try apply stops_signature_body.
    apply (inj pretty) in Eh as ->. by rewrite (signature_body_S_inj _ _ _ _ Eb).
Qed.

Lemma atom_type_value_inj ty1 ty2 : atom_type_value ty1 = atom_type_value ty2 → ty1 = ty2.
Proof. destruct ty1, ty2; simpl; intros H; (done || discriminate H). Qed.

Lemma link_signature_inj ty1 og1 ty2 og2 :
  create_link_signature ty1 og1 = create_link_signature ty2 og2 →
  ty1 = ty2 ∧ og1 = og2.
Proof.
  unfold create_link_signature. rewrite !signature_loop_body, !string_app_assoc.
  intros E. apply digits_stop_inj in E as [Ety Eb];
    try apply all_digits_pretty; try done.
  apply (inj pretty), atom_type_value_inj in Ety as ->.
  string_app. injection Eb as Eb. by rewrite (signature_body_0_inj _ _ Eb).
Qed.

(** X15.  Signatures tell links apart: two signatures are equal exactly
    for the same type and the same outgoing sequence, element by element
    and in the same order; swapping two different handles changes the
    signature. *)
Theorem create_link_signature_injective ty1 og1 ty2 og2 :
  (create_link_signature ty1 og1 = create_link_signature ty2 og2
   ↔ ty1 = ty2 ∧ og1 = og2)
  ∧ ∀ A B, A ≠ B →
      create_link_signature ty1 [A; B] ≠ create_link_signature ty1 [B; A].
Proof.
  split.
  - split; [apply link_signature_inj|]. by intros [-> ->].
  - intros A B Hne E.
    apply link_signature_inj in E as [_ E]. congruence.
Qed.

Section Signature_index.
Context {T : Traversal}.

Lemma signatures_sound_grow s s' :
  signatures_sound s →
  (∀ h a, atoms s !! h = Some a →
     ∃ a', atoms s' !! h = Some a' ∧ type a' = type a ∧ outgoing a' = outgoing a) →
  (∀ sig, sig ∈ link_signatures s' →
     sig ∈ link_signatures s
     ∨ ∃ h a, atoms s' !! h = Some a ∧ is_link_type (type a) = true
              ∧ sig = create_link_signature (type a) (outgoing a)) →
  signatures_sound s'.
Proof.
  intros Hsound Hkeep Hsigs sig [Hold|Hnew]%Hsigs; [|done].
  destruct (Hsound sig Hold) as (h & a & Hl & Hty & ->).
  destruct (Hkeep h a Hl) as (a' & Hl' & Et & Eo). exists h, a'.
  by rewrite Et, Eo.
Qed.

Lemma reachable_signatures_sound s : reachable s → has_room s → signatures_sound s.
Proof.
  induction 1 as [|s ty nm Hs IH|s ty og Hs IH|s h a v Hs IH Hg|s h a v Hs IH Hg];
    intros Hroom.
  - intros sig Hin. simpl in Hin. by apply elem_of_empty in Hin.
  - assert (has_room s) as Hroom'
      by (unfold has_room in *; pose proof (add_node_size s ty nm); lia).
    pose proof (reachable_wf _ Hs Hroom') as Hwf.
    destruct (add_node_cases s ty nm) as [[-> _]|[(n & hs & h & _ & _ & _ & _ & ->)|
      (n & _ & _ & _ & ->)]]; simpl; [by apply IH..|].
    apply (signatures_sound_grow s); [by apply IH| |by left].
    intros h a Hl. exists a. split; [|done]. simpl.
    rewrite lookup_insert_ne; [done|]. pose proof (wf_fresh _ Hwf). congruence.
  - assert (has_room s) as Hroom'
      by (unfold has_room in *; pose proof (add_link_size s ty og); lia).
    pose proof (reachable_wf _ Hs Hroom') as Hwf.
    destruct (add_link_cases s ty og) as [[-> _]|[(h & _ & _ & _ & _ & _ & ->)|
      (_ & Hty & _ & _ & ->)]]; simpl; [by apply IH..|].
    apply (signatures_sound_grow s); [by apply IH| |].
    + intros h a Hl. exists a. split; [|done]. simpl.
      rewrite lookup_insert_ne; [done|]. pose proof (wf_fresh _ Hwf). congruence.
    + simpl. intros sig [->%elem_of_singleton|Hold]%elem_of_union; [|by left].
      right. eexists _, _. rewrite lookup_insert_eq. done.
  - apply get_atom_Some in Hg as [_ Hl].
    assert (has_room s) as Hroom'
      by (unfold has_room in *; simpl in Hroom;
          by rewrite map_size_insert_Some in Hroom).
    apply (signatures_sound_grow s); [by apply IH| |by left].
    intros k b Hk. simpl. destruct (decide (h = k)) as [<-|Hne].
    + rewrite lookup_insert_eq. eexists. split; [done|]. by simplify_eq.
    + rewrite lookup_insert_ne by done. eauto.
  - apply get_atom_Some in Hg as [_ Hl].
    assert (has_room s) as Hroom'
      by (unfold has_room in *; simpl in Hroom;
          by rewrite map_size_insert_Some in Hroom).
    apply (signatures_sound_grow s); [by apply IH| |by left].
    intros k b Hk. simpl. destruct (decide (h = k)) as [<-|Hne].
    + rewrite lookup_insert_eq. eexists. split; [done|]. by simplify_eq.
    + rewrite lookup_insert_ne by done. eauto.
Qed.

(** X16.  The signature index is exact: in a reachable store with room the
    signature of a type and an outgoing sequence is in the index exactly
    when a link of that type and sequence is stored, so that [add_link]
    scans the store only for links that it will find. *)
Theorem signature_index_exact s ty og :
  reachable s → has_room s →
  (create_link_signature ty og ∈ link_signatures s
   ↔ is_link_type ty = true ∧ link_stored s ty og)
  ∧ (create_link_signature ty og ∈ link_signatures s →
     is_Some (find_link ty og (iteration (atoms s)))).
Proof.
  intros Hreach Hroom. pose proof (reachable_wf _ Hreach Hroom) as Hwf.
  assert (Hin : create_link_signature ty og ∈ link_signatures s →
            is_link_type ty = true ∧ link_stored s ty og).
  { intros Hsig.
    destruct (reachable_signatures_sound s Hreach Hroom _ Hsig)
      as (h & a & Hl & Hty & [-> ->]%link_signature_inj).
    split; [done|]. by exists h, a. }
  split; [split; [done|]|].
  - intros (Hty & h & a & Hl & <- & <-). by apply (wf_signature _ Hwf _ _ Hl).
  - intros (_ & h & a & Hl & Hty & Ho)%Hin.
    destruct (find_link ty og (iteration (atoms s))) as [k|] eqn:Hf; [done|].
    destruct (find_link_None _ _ _ h a Hf); [by apply elem_of_iteration|done].
Qed.

End Signature_index.

(** ** Counts under the operations *)

Lemma size_filter_insert_new (f : rwkv_atom → bool) (m : gmap N rwkv_atom) h a :
  m !! h = None →
  size (filter (λ p : N * rwkv_atom, f p.2 = true) (<[h := a]> m))
  = if f a then S (size (filter (λ p : N * rwkv_atom, f p.2 = true) m))
    else size (filter (λ p : N * rwkv_atom, f p.2 = true) m).
Proof.
  intros Hnone. destruct (f a) eqn:Hf.
  - rewrite map_filter_insert_True by done.
    apply map_size_insert_None, map_lookup_filter_None_2. by left.
  - rewrite map_filter_insert_not'; [done|simpl; congruence|]. intros y. congruence.
Qed.

Lemma size_filter_insert_same (f : rwkv_atom → bool) (m : gmap N rwkv_atom) h a b :
  m !! h = Some b → f a = f b →
  size (filter (λ p : N * rwkv_atom, f p.2 = true) (<[h := a]> m))
  = size (filter (λ p : N * rwkv_atom, f p.2 = true) m).
Proof.
  intros Hb Hf. destruct (f a) eqn:Ha.
  - rewrite map_filter_insert_True by done.
    apply map_size_insert_Some. exists b. apply map_lookup_filter_Some_2; [done|].
    simpl. congruence.
  - rewrite map_filter_insert_not'; [done|simpl; congruence|].
    intros y Hy. simpl. congruence.
Qed.

Section Counts.
Context {T : Traversal}.

Lemma count_filter (f : rwkv_atom → bool) (m : gmap N rwkv_atom) :
  fold_left (λ count '(_, a), if f a then S count else count) (iteration m) 0%nat
  = size (filter (λ p : N * rwkv_atom, f p.2 = true) m).
Proof.
  rewrite (count_fold f). simpl.
  apply (length_filter_iteration (λ p, f p.2 = true)).
Qed.

(** X17.  Each operation moves its own count only: on a reachable store
    with room [add_node] leaves the link count alone and raises the node
    count by what it adds to the size, [add_link] leaves the node count
    alone and raises the link count by what it adds to the size, and a
    write of a truth or attention value changes neither count nor the
    size. *)
Theorem counts_follow_creation s ty nm og h a v w :
  reachable s → has_room s →
  (let r := rwkv_atomspace_add_node s ty nm in
   rwkv_atomspace_get_link_count r.2 = rwkv_atomspace_get_link_count s
   ∧ (rwkv_atomspace_get_node_count r.2 + rwkv_atomspace_get_size s
      = rwkv_atomspace_get_node_count s + rwkv_atomspace_get_size r.2)%nat)
  ∧ (let r := rwkv_atomspace_add_link s ty og in
     rwkv_atomspace_get_node_count r.2 = rwkv_atomspace_get_node_count s
     ∧ (rwkv_atomspace_get_link_count r.2 + rwkv_atomspace_get_size s
        = rwkv_atomspace_get_link_count s + rwkv_atomspace_get_size r.2)%nat)
  ∧ (rwkv_atomspace_get_atom s h = Some a →
     ∀ s', s' = store_atom s h (rwkv_atom_set_truth_value a v)
           ∨ s' = store_atom s h (rwkv_atom_set_attention_value a w) →
       rwkv_atomspace_get_size s' = rwkv_atomspace_get_size s
       ∧ rwkv_atomspace_get_node_count s' = rwkv_atomspace_get_node_count s
       ∧ rwkv_atomspace_get_link_count s' = rwkv_atomspace_get_link_count s).
Proof.
  intros Hreach Hroom. pose proof (reachable_wf _ Hreach Hroom) as Hwf.
  pose proof (wf_fresh _ Hwf) as Hfresh.
  unfold rwkv_atomspace_get_node_count, rwkv_atomspace_get_link_count,
    rwkv_atomspace_get_size.
  rewrite !(count_filter (λ a, is_node_type (type a))),
    !(count_filter (λ a, is_link_type (type a))).
  split_and!.
  - destruct (add_node_cases s ty nm) as [[-> _]|[(n & hs & k & _ & _ & _ & _ & ->)|
      (n & _ & Hty & _ & ->)]]; simpl; [done..|].
    rewrite (size_filter_insert_new (λ a, is_link_type (type a))) by done. simpl.
    by rewrite (is_link_type_node _ Hty).
  - destruct (add_node_cases s ty nm) as [[-> _]|[(n & hs & k & _ & _ & _ & _ & ->)|
      (n & _ & Hty & _ & ->)]]; simpl; [lia..|].
    rewrite (size_filter_insert_new (λ a, is_node_type (type a))),
      map_size_insert_None by done. simpl.
    rewrite Hty. lia.
  - destruct (add_link_cases s ty og) as [[-> _]|[(k & _ & _ & _ & _ & _ & ->)|
      (_ & Hty & _ & _ & ->)]]; simpl; [done..|].
    rewrite (size_filter_insert_new (λ a, is_node_type (type a))) by done. simpl.
    by rewrite (is_node_type_link _ Hty).
  - destruct (add_link_cases s ty og) as [[-> _]|[(k & _ & _ & _ & _ & _ & ->)|
      (_ & Hty & _ & _ & ->)]]; simpl; [lia..|].
    rewrite (size_filter_insert_new (λ a, is_link_type (type a))),
      map_size_insert_None by done. simpl.
    rewrite Hty. lia.
  - intros [_ Hl]%get_atom_Some s' [-> | ->];
      rewrite !(count_filter (λ a, is_node_type (type a))),
        !(count_filter (λ a, is_link_type (type a))); simpl;
      rewrite (size_filter_insert_same (λ a, is_node_type (type a)) _ _ _ a),
        (size_filter_insert_same (λ a, is_link_type (type a)) _ _ _ a),
        map_size_insert_Some by done;
      done.
Qed.

End Counts.

(** ** Different atoms, different handles *)

Section Distinct.
Context {T : Traversal}.

Lemma add_node_keeps s ty nm h a :
  wf s → atoms s !! h = Some a → atoms (rwkv_atomspace_add_node s ty nm).2 !! h = Some a.
Proof.
  intros Hwf Hl. destruct (add_node_cases s ty nm) as [[-> _]|[(n & hs & k & _ & _ & _ & _ & ->)|
    (n & _ & _ & _ & ->)]]; simpl; [done..|].
  rewrite lookup_insert_ne; [done|]. pose proof (wf_fresh _ Hwf). congruence.
Qed.

Lemma add_link_keeps s ty og h a :
  wf s → atoms s !! h = Some a → atoms (rwkv_atomspace_add_link s ty og).2 !! h = Some a.
Proof.
  intros Hwf Hl. destruct (add_link_cases s ty og) as [[-> _]|[(k & _ & _ & _ & _ & _ & ->)|
    (_ & _ & _ & _ & ->)]]; simpl; [done..|].
  rewrite lookup_insert_ne; [done|]. pose proof (wf_fresh _ Hwf). congruence.
Qed.

(** X18.  Different atoms get different handles: two [add_node] calls in a
    row with node types and with different (type, name) pairs return two
    different valid handles (the same name under two types makes two
    nodes), and so do two [add_link] calls in a row with link types, stored
    outgoing handles and different (type, outgoing sequence) pairs; the
    store after the two calls is to have room. *)
Theorem different_atoms_different_handles s ty1 ty2 n1 n2 og1 og2 :
  reachable s →
  (is_node_type ty1 = true → is_node_type ty2 = true → (ty1, n1) ≠ (ty2, n2) →
   let r1 := rwkv_atomspace_add_node s ty1 (Some n1) in
   let r2 := rwkv_atomspace_add_node r1.2 ty2 (Some n2) in
   has_room r2.2 →
   r1.1 ≠ r2.1 ∧ r1.1 ≠ RWKV_INVALID_ATOM_HANDLE ∧ r2.1 ≠ RWKV_INVALID_ATOM_HANDLE)
  ∧ (is_link_type ty1 = true → is_link_type ty2 = true → og1 ≠ [] → og2 ≠ [] →
     (∀ x, x ∈ og1 ++ og2 → is_Some (atoms s !! x)) → (ty1, og1) ≠ (ty2, og2) →
     let r1 := rwkv_atomspace_add_link s ty1 og1 in
     let r2 := rwkv_atomspace_add_link r1.2 ty2 og2 in
     has_room r2.2 →
     r1.1 ≠ r2.1 ∧ r1.1 ≠ RWKV_INVALID_ATOM_HANDLE ∧ r2.1 ≠ RWKV_INVALID_ATOM_HANDLE).
Proof.
  intros Hreach. unfold RWKV_INVALID_ATOM_HANDLE. split.
  - intros Hty1 Hty2 Hdiff. cbv zeta.
    set (r1 := rwkv_atomspace_add_node s ty1 (Some n1)).
    set (r2 := rwkv_atomspace_add_node r1.2 ty2 (Some n2)). intros Hroom2.
    assert (Hroom1 : has_room r1.2)
      by (unfold has_room in *; pose proof (add_node_size r1.2 ty2 (Some n2)); fold r2 in H; lia).
    assert (Hroom : has_room s)
      by (unfold has_room in *; pose proof (add_node_size s ty1 (Some n1)); fold r1 in H; lia).
    pose proof (reachable_wf _ Hreach Hroom) as Hwf.
    pose proof (reachable_wf _ (reachable_add_node s ty1 (Some n1) Hreach) Hroom1) as Hwf1.
    destruct (add_node_twice s ty1 n1 Hwf Hty1) as (_ & Hv1 & _ & (a1 & Hl1 & Ht1 & Hn1) & _).
    destruct (add_node_twice r1.2 ty2 n2 Hwf1 Hty2) as (_ & Hv2 & _ & (a2 & Hl2 & Ht2 & Hn2) & _).
    fold r1 in Hv1, Hl1. fold r2 in Hv2, Hl2. split_and!; [|done..].
    intros E. pose proof (add_node_keeps r1.2 ty2 (Some n2) _ _ Hwf1 Hl1) as Hk.
    fold r2 in Hk. rewrite E in Hk. congruence.
  - intros Hty1 Hty2 Hog1 Hog2 Hall Hdiff. cbv zeta.
    set (r1 := rwkv_atomspace_add_link s ty1 og1).
    set (r2 := rwkv_atomspace_add_link r1.2 ty2 og2). intros Hroom2.
    assert (Hroom1 : has_room r1.2)
      by (unfold has_room in *; pose proof (add_link_size r1.2 ty2 og2); fold r2 in H; lia).
    assert (Hroom : has_room s)
      by (unfold has_room in *; pose proof (add_link_size s ty1 og1); fold r1 in H; lia).
    pose proof (reachable_wf _ Hreach Hroom) as Hwf.
    pose proof (reachable_wf _ (reachable_add_link s ty1 og1 Hreach) Hroom1) as Hwf1.
    assert (Hex1 : outgoing_exist (atoms s) og1 = true).
    { apply outgoing_exist_spec. intros x Hx. apply Hall, elem_of_app. by left. }
    assert (Hex2 : outgoing_exist (atoms r1.2) og2 = true).
    { apply outgoing_exist_spec. intros x Hx.
      destruct (Hall x) as [b Hb]; [apply elem_of_app; by right|].
      exists b. by apply add_link_keeps. }
    destruct (add_link_twice s ty1 og1 Hwf Hty1 Hog1 Hex1)
      as (_ & Hv1 & _ & (a1 & Hl1 & Ht1 & Ho1) & _).
    destruct (add_link_twice r1.2 ty2 og2 Hwf1 Hty2 Hog2 Hex2)
      as (_ & Hv2 & _ & (a2 & Hl2 & Ht2 & Ho2) & _).
    fold r1 in Hv1, Hl1. fold r2 in Hv2, Hl2. split_and!; [|done..].
    intros E. pose proof (add_link_keeps r1.2 ty2 og2 _ _ Hwf1 Hl1) as Hk.
    fold r2 in Hk. rewrite E in Hk. congruence.
Qed.

End Distinct.

(** ** What encoding leaves in place, and what creation starts with *)

Section Persistence.
Context {T : Traversal}.

Lemma encode_entry_keeps i x s h a :
  wf s → atoms s !! h = Some a →
  ∃ a', atoms (encode_entry i x s) !! h = Some a' ∧ same_identity a a'.
Proof.
  intros Hwf Hl. unfold encode_entry.
  destruct (F32.lt F32.tenth (F32.abs x)); [|by exists a].
  pose proof (add_node_keeps s RWKV_ATOM_CONCEPT_NODE
                (Some ("state_" +:+ pretty i)) h a Hwf Hl) as Hk.
  destruct (rwkv_atomspace_add_node s RWKV_ATOM_CONCEPT_NODE
              (Some ("state_" +:+ pretty i))) as [k s1]. simpl in Hk.
  destruct (k =? RWKV_INVALID_ATOM_HANDLE); [by exists a|].
  destruct (rwkv_atomspace_get_atom s1 k) as [atom|] eqn:Hg; [|by exists a].
  apply get_atom_Some in Hg as [_ Hg]. simpl.
  destruct (decide (k = h)) as [->|Hne].
  - rewrite lookup_insert_eq. eexists. split; [done|]. by simplify_eq.
  - rewrite lookup_insert_ne by done. by exists a.
Qed.

Lemma encode_loop_keeps i l s h a :
  reachable s → has_room (encode_loop i l s) → atoms s !! h = Some a →
  ∃ a', atoms (encode_loop i l s) !! h = Some a' ∧ same_identity a a'.
Proof.
  revert i s a. induction l as [|x l IH]; intros i s a Hs Hroom Hl; simpl in *.
  { by exists a. }
  destruct (reachable_encode_entry i x s Hs) as [Hs' Hsz].
  destruct (reachable_encode_loop (S i) l _ Hs') as [_ Hsz'].
  assert (has_room s) as Hroom' by (unfold has_room in *; lia).
  destruct (encode_entry_keeps i x s h a (reachable_wf _ Hs Hroom') Hl)
    as (a1 & Hl1 & Hh1 & Ht1 & Hn1 & Ho1).
  destruct (IH (S i) _ a1 Hs' Hroom Hl1) as (a2 & Hl2 & Hh2 & Ht2 & Hn2 & Ho2).
  exists a2. split; [done|]. unfold same_identity. split_and!; congruence.
Qed.

(** X19.  Encoding leaves the atoms in place: when the store that
    [rwkv_context_to_atoms] leaves has room, every atom stored before is
    stored after under the same handle, with the same type, name and
    outgoing list; only its truth and attention values may differ. *)
Theorem encoding_keeps_atoms s state h a :
  reachable s → has_room (rwkv_context_to_atoms s state) →
  rwkv_atomspace_get_atom s h = Some a →
  ∃ a', rwkv_atomspace_get_atom (rwkv_context_to_atoms s state) h = Some a'
        ∧ same_identity a a'.
Proof.
  intros Hs Hroom [Hh Hl]%get_atom_Some. unfold rwkv_context_to_atoms in *.
  destruct (encode_loop_keeps 0 _ s h a Hs Hroom Hl) as (a' & Hl' & Hid).
  exists a'. split; [|done]. by apply get_atom_Some.
Qed.

Lemma add_link_fresh s ty og :
  is_link_type ty = true → og ≠ [] → outgoing_exist (atoms s) og = true →
  ¬ link_stored s ty og →
  rwkv_atomspace_add_link s ty og = (next_handle s, link_inserted s ty og).
Proof.
  intros Hty Hog Hex Hno.
  destruct (add_link_cases s ty og) as [[_ [?|[?|?]]]|[(h & _ & _ & _ & _ & Hf & _)|
    (_ & _ & _ & _ & E)]]; [done|congruence|congruence| |done].
  destruct Hno. apply find_link_Some in Hf as (a & Hl%elem_of_iteration & Ha).
  by exists h, a.
Qed.

(** X20.  What creation starts with: on a reachable store with room, a call
    that creates a node or a link stores it with the truth value
    (0.5, 0.1), the attention value (0, 0, 0) and its own handle; a call
    for a node or link that is stored already returns its handle and
    leaves the store, and so the annotations written to it, as they are. *)
Theorem creation_defaults s ty n og :
  reachable s → has_room s →
  (is_node_type ty = true →
   let r := rwkv_atomspace_add_node s ty (Some n) in
   (¬ node_stored s ty n →
    rwkv_atomspace_get_atom r.2 r.1
    = Some {| handle := r.1; type := ty; name := n; outgoing := [];
              tv := mk_tv F32.half F32.tenth;
              av := mk_av F32.zero F32.zero F32.zero |})
   ∧ (node_stored s ty n →
      r.2 = s ∧ ∃ a, rwkv_atomspace_get_atom s r.1 = Some a ∧ type a = ty ∧ name a = n))
  ∧ (is_link_type ty = true → og ≠ [] → (∀ x, x ∈ og → is_Some (atoms s !! x)) →
     let r := rwkv_atomspace_add_link s ty og in
     (¬ link_stored s ty og →
      rwkv_atomspace_get_atom r.2 r.1
      = Some {| handle := r.1; type := ty; name := ""; outgoing := og;
                tv := mk_tv F32.half F32.tenth;
                av := mk_av F32.zero F32.zero F32.zero |})
     ∧ (link_stored s ty og →
        r.2 = s
        ∧ ∃ a, rwkv_atomspace_get_atom s r.1 = Some a ∧ type a = ty ∧ outgoing a = og)).
Proof.
  intros Hreach Hroom. pose proof (reachable_wf _ Hreach Hroom) as Hwf.
  pose proof (wf_next _ Hwf) as Hnext. split.
  - intros Hty. cbv zeta. split.
    + intros Hno. rewrite add_node_fresh by done. simpl.
      apply get_atom_Some. split; [lia|]. simpl. apply lookup_insert_eq.
    + intros Hst.
      destruct (add_node_twice s ty n Hwf Hty) as (_ & Hv & _ & (a & Hl & Ha) & Hold & _).
      rewrite (Hold Hst) in *. split; [done|]. exists a. split; [|done].
      by apply get_atom_Some.
  - intros Hty Hog Hall%outgoing_exist_spec. cbv zeta. split.
    + intros Hno. rewrite add_link_fresh by done. simpl.
      apply get_atom_Some. split; [lia|]. simpl. apply lookup_insert_eq.
    + intros (h & a & Hl & Ha & Ho).
      destruct (add_link_twice s ty og Hwf Hty Hog Hall)
        as (_ & Hv & _ & (a' & Hl' & Ha') & [[E _]|[E E']]).
      * rewrite E in *. split; [done|]. exists a'. split; [|done].
        by apply get_atom_Some.
      * exfalso. destruct (add_link_cases s ty og) as [[E0 _]|[(k & _ & _ & _ & _ & _ & E0)|
          (_ & _ & _ & Hnew & _)]].
        -- rewrite E0 in E'. simpl in E'. lia.
        -- rewrite E0 in E. simpl in E. pose proof (f_equal next_handle E) as En.
           simpl in En. by apply (wrap64_succ_ne (next_handle s) (wf_room _ Hwf)).
        -- by apply (wf_no_link s ty og h a Hwf Hty Hnew Hl).
Qed.

End Persistence.

(** ** The further properties at sample stores *)

Lemma has_room_three_nodes : has_room three_nodes.
Proof. vm_compute. reflexivity. Qed.

Lemma chain_link_stored : atoms chain !! 4 = Some chain_link.
Proof. vm_compute. reflexivity. Qed.

Lemma cat_node_stored : atoms two_nodes !! 1 = Some cat_node.
Proof. vm_compute. reflexivity. Qed.

Lemma links_refer_to_stored_atoms_witness :
  atoms chain !! 4 = Some chain_link ∧ 2 ∈ outgoing chain_link
  ∧ is_Some (atoms chain !! 2) ∧ is_Some (rwkv_atomspace_get_atom chain 2).
Proof.
  assert (Hin : 2 ∈ outgoing chain_link) by (right; left).
  destruct (links_refer_to_stored_atoms chain 4 chain_link 2
              reachable_chain chain_link_stored Hin) as [H1 H2].
  split_and!; [exact chain_link_stored | exact Hin | exact H1 | exact (H2 has_room_chain)].
Defined.

Lemma stored_atoms_keep_their_kind_witness :
  atoms chain !! 4 = Some chain_link
  ∧ is_link_type (rwkv_atom_get_type chain_link) = true
  ∧ rwkv_atom_get_name chain_link = None
  ∧ rwkv_atom_get_outgoing chain_link 1 = take 1 (outgoing chain_link).
Proof.
  assert (Hty : is_link_type (rwkv_atom_get_type chain_link) = true) by reflexivity.
  destruct (proj2 (stored_atoms_keep_their_kind chain 4 chain_link 1
                     reachable_chain chain_link_stored) Hty) as (_ & Hn & Ho & _).
  split_and!; [exact chain_link_stored | exact Hty | exact Hn | exact Ho].
Defined.

Lemma stored_truth_values_settled_witness :
  atoms chain !! 4 = Some chain_link
  ∧ rwkv_atom_set_truth_value chain_link (rwkv_atom_get_truth_value chain_link)
    = chain_link.
Proof.
  split; [exact chain_link_stored|].
  apply (stored_truth_values_settled chain 4 chain_link
           reachable_chain chain_link_stored).
Defined.

Lemma stored_atoms_unique_witness :
  atoms chain !! 4 = Some chain_link
  ∧ (is_link_type (type chain_link) = true → outgoing chain_link = outgoing chain_link →
     4 = 4 ∧ chain_link = chain_link).
Proof.
  split; [exact chain_link_stored|].
  apply (stored_atoms_unique chain 4 chain_link 4 chain_link reachable_chain
           has_room_chain chain_link_stored chain_link_stored eq_refl).
Defined.

Lemma handles_are_one_to_size_witness :
  reachable two_nodes ∧ has_room two_nodes
  ∧ (is_Some (rwkv_atomspace_get_atom two_nodes 2)
     ↔ 1 ≤ 2 ≤ N.of_nat (rwkv_atomspace_get_size two_nodes)).
Proof.
  split_and!; [apply reachable_two_nodes | apply has_room_two_nodes |].
  apply (handles_are_one_to_size two_nodes 2 reachable_two_nodes has_room_two_nodes).
Defined.

Lemma failed_creation_changes_nothing_witness :
  rwkv_atomspace_add_node two_nodes RWKV_ATOM_CONCEPT_NODE None
  = (RWKV_INVALID_ATOM_HANDLE, two_nodes)
  ∧ rwkv_atomspace_add_link two_nodes RWKV_ATOM_LIST_LINK []
    = (RWKV_INVALID_ATOM_HANDLE, two_nodes).
Proof.
  split.
  - apply (proj1 (failed_creation_changes_nothing two_nodes RWKV_ATOM_CONCEPT_NODE None [])).
    by right.
  - apply (proj1 (proj2 (failed_creation_changes_nothing two_nodes RWKV_ATOM_LIST_LINK
                           None []))).
    by right.
Defined.

Lemma truth_value_read_back_witness :
  in_unit F32.half = true ∧ in_unit F32.one = true
  ∧ rwkv_atom_get_truth_value
      (rwkv_atom_set_truth_value chain_link (mk_tv F32.half F32.one))
    = mk_tv F32.half F32.one.
Proof.
  assert (H1 : in_unit F32.half = true) by (vm_compute; reflexivity).
  assert (H2 : in_unit F32.one = true) by (vm_compute; reflexivity).
  split_and!; [exact H1 | exact H2 |].
  apply (truth_value_read_back chain_link (mk_tv F32.half F32.one) H1 H2);
    discriminate.
Defined.

Lemma smaller_buffer_gets_prefix_witness :
  (1 ≤ 2)%nat
  ∧ rwkv_atomspace_pattern_match three_nodes 1 1
    = take 1 (rwkv_atomspace_pattern_match three_nodes 1 2).
Proof.
  assert (Hle : (1 ≤ 2)%nat) by lia.
  split; [exact Hle|].
  apply (smaller_buffer_gets_prefix three_nodes 1 1 2 Hle).
Defined.

Lemma pattern_match_symmetric_witness :
  2 ∈ rwkv_atomspace_pattern_match three_nodes 1 5
  ∧ 1 ∈ rwkv_atomspace_pattern_match three_nodes 2
          (rwkv_atomspace_get_size three_nodes).
Proof.
  assert (Hin : 2 ∈ rwkv_atomspace_pattern_match three_nodes 1 5)
    by (vm_compute; repeat constructor).
  split; [exact Hin|].
  apply (pattern_match_symmetric three_nodes 1 2 5
           reachable_three_nodes has_room_three_nodes Hin).
Defined.

Lemma conclusions_are_stored_witness :
  1 ≠ RWKV_INVALID_ATOM_HANDLE
  ∧ ∃ cs, rwkv_atomspace_forward_inference chain 1 10 = Some cs
      ∧ NoDup cs
      ∧ (∀ c, c ∈ cs → is_Some (rwkv_atomspace_get_atom chain c))
      ∧ (rwkv_atomspace_get_atom chain 1 = None → cs = []).
Proof.
  assert (Hne : 1 ≠ RWKV_INVALID_ATOM_HANDLE) by discriminate.
  split; [exact Hne|].
  apply (proj2 (conclusions_are_stored chain 1 10) reachable_chain has_room_chain Hne).
Defined.

Lemma encoded_name_decodes_witness :
  N.of_nat 7 < uint64_modulus
  ∧ name state_seven = "state_" +:+ pretty 7%nat
  ∧ stoul (pretty 7%nat) = Some (N.of_nat 7)
  ∧ decode_entry state_seven (replicate 10 F32.zero)
    = (if (7 <? length (replicate 10 F32.zero))%nat
       then <[7%nat := decode_value state_seven]> (replicate 10 F32.zero)
       else replicate 10 F32.zero).
Proof.
  assert (Hlt : N.of_nat 7 < uint64_modulus) by (vm_compute; reflexivity).
  assert (Hn : name state_seven = "state_" +:+ pretty 7%nat) by (vm_compute; reflexivity).
  split; [exact Hlt|]. split; [exact Hn|].
  apply (encoded_name_decodes state_seven 7 (replicate 10 F32.zero) Hlt eq_refl Hn).
Defined.

Lemma decode_writes_named_entries_only_witness :
  (1 < 3)%nat
  ∧ (∀ h a, atoms two_nodes !! h = Some a → decode_target a ≠ Some (N.of_nat 1))
  ∧ rwkv_atoms_to_context two_nodes 3 !! 1%nat = Some F32.zero.
Proof.
  assert (Hlt : (1 < 3)%nat) by lia.
  assert (Hno : ∀ h a, atoms two_nodes !! h = Some a →
                       decode_target a ≠ Some (N.of_nat 1)).
  { intros h a Hl. apply elem_of_map_to_list in Hl. vm_compute in Hl.
    repeat (apply elem_of_cons in Hl as [Hl|Hl];
            [injection Hl as -> ->; vm_compute; discriminate|]).
    by apply elem_of_nil in Hl. }
  split; [exact Hlt|]. split; [exact Hno|].
  apply (proj1 (proj2 (decode_writes_named_entries_only two_nodes 3 1)) Hlt Hno).
Defined.

Lemma bridge_round_trip_entrywise_witness :
  [F32.zero; F32.one_and_half] !! 1%nat = Some F32.one_and_half
  ∧ rwkv_atoms_to_context
      (rwkv_context_to_atoms rwkv_atomspace_create [F32.zero; F32.one_and_half])
      (length [F32.zero; F32.one_and_half]) !! 1%nat
    = Some (if (1 <? 100)%nat then round_trip_value F32.one_and_half else F32.zero).
Proof.
  assert (Hl : [F32.zero; F32.one_and_half] !! 1%nat = Some F32.one_and_half)
    by reflexivity.
  split; [exact Hl|].
  apply (bridge_round_trip_entrywise [F32.zero; F32.one_and_half] 1 F32.one_and_half Hl).
Defined.

Lemma encoding_stays_reachable_witness :
  reachable two_nodes ∧ reachable (rwkv_context_to_atoms two_nodes [F32.one]).
Proof.
  split; [exact reachable_two_nodes|].
  apply (encoding_stays_reachable two_nodes [F32.one] reachable_two_nodes).
Defined.

Lemma create_link_signature_injective_witness :
  1 ≠ 2
  ∧ create_link_signature RWKV_ATOM_LIST_LINK [1; 2]
    ≠ create_link_signature RWKV_ATOM_LIST_LINK [2; 1].
Proof.
  assert (Hne : 1 ≠ 2) by discriminate.
  split; [exact Hne|].
  apply (proj2 (create_link_signature_injective RWKV_ATOM_LIST_LINK []
                  RWKV_ATOM_LIST_LINK []) 1 2 Hne).
Defined.

Lemma signature_index_exact_witness :
  reachable chain ∧ has_room chain
  ∧ (create_link_signature RWKV_ATOM_IMPLICATION_LINK [1; 2] ∈ link_signatures chain
     ↔ is_link_type RWKV_ATOM_IMPLICATION_LINK = true
       ∧ link_stored chain RWKV_ATOM_IMPLICATION_LINK [1; 2]).
Proof.
  split; [exact reachable_chain|]. split; [exact has_room_chain|].
  apply (signature_index_exact chain RWKV_ATOM_IMPLICATION_LINK [1; 2]
           reachable_chain has_room_chain).
Defined.

Lemma counts_follow_creation_witness :
  reachable chain ∧ has_room chain
  ∧ rwkv_atomspace_get_link_count
      (rwkv_atomspace_add_node chain RWKV_ATOM_CONCEPT_NODE (Some "Dog")).2
    = rwkv_atomspace_get_link_count chain.
Proof.
  split; [exact reachable_chain|]. split; [exact has_room_chain|].
  exact (proj1 (proj1 (counts_follow_creation chain RWKV_ATOM_CONCEPT_NODE (Some "Dog")
                         [1; 2] 4 chain_link (mk_tv F32.one F32.one)
                         (mk_av F32.one F32.zero F32.zero)
                         reachable_chain has_room_chain))).
Defined.

Lemma different_atoms_different_handles_witness :
  reachable two_nodes
  ∧ (RWKV_ATOM_CONCEPT_NODE, "Dog") ≠ (RWKV_ATOM_PREDICATE_NODE, "Dog")
  ∧ (rwkv_atomspace_add_node two_nodes RWKV_ATOM_CONCEPT_NODE (Some "Dog")).1
    ≠ (rwkv_atomspace_add_node
         (rwkv_atomspace_add_node two_nodes RWKV_ATOM_CONCEPT_NODE (Some "Dog")).2
         RWKV_ATOM_PREDICATE_NODE (Some "Dog")).1.
Proof.
  assert (Hne : (RWKV_ATOM_CONCEPT_NODE, "Dog") ≠ (RWKV_ATOM_PREDICATE_NODE, "Dog"))
    by discriminate.
  split; [exact reachable_two_nodes|]. split; [exact Hne|].
  apply (proj1 (different_atoms_different_handles two_nodes RWKV_ATOM_CONCEPT_NODE
                  RWKV_ATOM_PREDICATE_NODE "Dog" "Dog" [] [] reachable_two_nodes)
           eq_refl eq_refl Hne).
  vm_compute. reflexivity.
Defined.

Lemma encoding_keeps_atoms_witness :
  has_room (rwkv_context_to_atoms two_nodes [F32.one])
  ∧ rwkv_atomspace_get_atom two_nodes 1 = Some cat_node
  ∧ ∃ a', rwkv_atomspace_get_atom (rwkv_context_to_atoms two_nodes [F32.one]) 1 = Some a'
          ∧ same_identity cat_node a'.
Proof.
  assert (Hroom : has_room (rwkv_context_to_atoms two_nodes [F32.one]))
    by (vm_compute; reflexivity).
  assert (Hg : rwkv_atomspace_get_atom two_nodes 1 = Some cat_node)
    by (vm_compute; reflexivity).
  split; [exact Hroom|]. split; [exact Hg|].
  apply (encoding_keeps_atoms two_nodes [F32.one] 1 cat_node reachable_two_nodes Hroom Hg).
Defined.

Lemma creation_defaults_witness :
  reachable two_nodes ∧ has_room two_nodes
  ∧ node_stored two_nodes RWKV_ATOM_CONCEPT_NODE "Cat"
  ∧ (rwkv_atomspace_add_node two_nodes RWKV_ATOM_CONCEPT_NODE (Some "Cat")).2 = two_nodes.
Proof.
  assert (Hst : node_stored two_nodes RWKV_ATOM_CONCEPT_NODE "Cat").
  { exists 1, cat_node. split; [exact cat_node_stored | done]. }
  split; [exact reachable_two_nodes|]. split; [exact has_room_two_nodes|].
  split; [exact Hst|].
  apply (proj2 (proj1 (creation_defaults two_nodes RWKV_ATOM_CONCEPT_NODE "Cat" []
                         reachable_two_nodes has_room_two_nodes) eq_refl) Hst).
Defined.
